(** * A shallow embedding of the TiKV storage layer (package [tikv])

    The development follows the Go sources

    - [storage/tikv/tikv.go]: the [store] type, its transaction, policy and
      trigger entry points, the error constructors and [validateArrayIndex];
    - the transaction file of the same package: [transaction], its policy
      operations, [Write] and [updateRoot];
    - the package's tests and testable example, which are quoted where they
      document the behaviour the package is meant to have.

    Go values are modelled as follows.  A [string] and a [[]byte] are Rocq
    strings (lists of bytes).  Go's [int] is a [Z] together with the bounds
    of a 64-bit machine word.  A pointer is a location in a heap of the
    model's world; a Go map keyed by pointers is a [gmap] keyed by
    locations.  A function returning [(v, err)] returns a pair whose second
    component is [option error], [None] being Go's [nil].  A panic and a
    loop that never exits are outcomes of their own. *)

From Stdlib Require Import ZArith String Ascii List Bool Lia.
From stdpp Require Import base option list gmap strings sorting.

Local Open Scope Z_scope.
#[local] Set Warnings "-register-all".

(** ** Errors *)

(** The [storage.ErrCode] constants this package uses. *)
Inductive ErrCode : Type :=
  | NotFoundErr
  | InvalidPatchErr
  | InvalidTransactionErr.

(** The two ways [strconv.Atoi] fails. *)
Inductive strconv_error : Type :=
  | ErrSyntax
  | ErrRange.

(** Go's [error] values that flow through the package: a [*storage.Error],
    an error built by [fmt.Errorf], the [*strconv.NumError] of [Atoi], the
    backend's [kv.ErrNotExist], and any other error of the backend. *)
Inductive error : Type :=
  | storage_Error (Code : ErrCode) (Message : string)
  | fmt_Errorf (msg : string)
  | strconv_NumError (e : strconv_error)
  | kv_ErrNotExist
  | kv_OtherError (msg : string).

#[global] Instance ErrCode_eq_dec : EqDecision ErrCode.
Proof. solve_decision. Defined.

#[global] Instance strconv_error_eq_dec : EqDecision strconv_error.
Proof. solve_decision. Defined.

#[global] Instance error_eq_dec : EqDecision error.
Proof. solve_decision. Defined.

(** A value handed to [panic]: an [error] (as in [store.Abort]) or a run-time
    error raised by the Go runtime (index out of range, nil dereference). *)
Inductive panic_value : Type :=
  | PanicError (e : error)
  | PanicRuntime (msg : string).

(** ** Documents and paths *)

(** A JSON document as [encoding/json] decodes it with [UseNumber]:
    [map[string]interface{}], [[]interface{}], [string], [json.Number],
    [bool] and [nil]. *)
Inductive Value : Type :=
  | VNull
  | VBool (b : bool)
  | VNumber (literal : string)
  | VString (s : string)
  | VArray (elems : list Value)
  | VObject (fields : list (string * Value)).

(** [storage.Path] is a slice of strings. *)
Definition Path : Type := list string.

(** [storage.PatchOp]. *)
Inductive PatchOp : Type :=
  | AddOp
  | RemoveOp
  | ReplaceOp.

#[global] Instance PatchOp_eq_dec : EqDecision PatchOp.
Proof. solve_decision. Defined.

(** The message variables of [tikv.go]. *)
Definition doesNotExistMsg : string := "document does not exist".
Definition rootMustBeObjectMsg : string := "root must be object".
Definition rootCannotBeRemovedMsg : string := "root cannot be removed".
Definition outOfRangeMsg : string := "array index out of range".
Definition arrayIndexTypeMsg : string := "array index must be integer".

(** [invalidPatchError(f)], used in the package with a constant format and
    no arguments, so that [fmt.Sprintf(f)] is [f]. *)
Definition invalidPatchError (f : string) : error :=
  storage_Error InvalidPatchErr f.

(** [notFoundErrorf] applied to an already formatted message. *)
Definition notFoundErrorf (msg : string) : error :=
  storage_Error NotFoundErr msg.

(** ** [strconv.Atoi] *)

(** The width of Go's [int] on the 64-bit platforms the package targets. *)
Definition intSize : Z := 64.
Definition minInt : Z := - 2 ^ (intSize - 1).
Definition maxInt : Z := 2 ^ (intSize - 1) - 1.

Definition is_digit (c : ascii) : bool :=
  (48 <=? nat_of_ascii c)%nat && (nat_of_ascii c <=? 57)%nat.

Definition digit_val (c : ascii) : Z := Z.of_nat (nat_of_ascii c) - 48.

(** The digit loop of [Atoi]: [n = n*10 + int(ch)], a syntax error at the
    first byte that is not a digit. *)
Fixpoint atoi_digits (n : Z) (s : string) : option Z :=
  match s with
  | EmptyString => Some n
  | String ch rest =>
      if is_digit ch then atoi_digits (n * 10 + digit_val ch) rest else None
  end.

(** The text accepted in base 10: an optional sign, then at least one
    digit.  The result is the mathematical value, before the range check. *)
Definition atoi_parse (s : string) : option Z :=
  match s with
  | EmptyString => None
  | String c rest =>
      if Ascii.eqb c "-" then
        match rest with
        | EmptyString => None
        | _ => Z.opp <$> atoi_digits 0 rest
        end
      else if Ascii.eqb c "+" then
        match rest with
        | EmptyString => None
        | _ => atoi_digits 0 rest
        end
      else atoi_digits 0 s
  end.

(** [strconv.Atoi]: [ParseInt(s, 10, 0)] converted to [int].  A value that
    does not fit [int] is a range error (the clamped value is returned with
    it). *)
Definition strconv_Atoi (s : string) : Z * option error :=
  match atoi_parse s with
  | None => (0, Some (strconv_NumError ErrSyntax))
  | Some n =>
      if n <? minInt then (minInt, Some (strconv_NumError ErrRange))
      else if maxInt <? n then (maxInt, Some (strconv_NumError ErrRange))
      else (n, None)
  end.

(** ** Error constructors that print a path, and [validateArrayIndex] *)

Section PathErrors.

(** [storage.Path.String] lives in package [storage], outside this
    package; the functions below are stated for any rendering. *)
Variable Path_String : Path -> string.

(** [notFoundErrorf("%v: %v", path.String(), hint)]. *)
Definition notFoundErrorHint (path : Path) (hint : string) : error :=
  notFoundErrorf (Path_String path +:+ ": " +:+ hint).

Definition notFoundError (path : Path) : error :=
  notFoundErrorHint path doesNotExistMsg.

(** [len(arr)] as an [int]. *)
Definition len {A} (l : list A) : Z := Z.of_nat (length l).

Definition validateArrayIndex (arr : list Value) (s : string) (path : Path)
  : Z * option error :=
  let '(idx, err) := strconv_Atoi s in
  match err with
  | Some _ => (0, Some (notFoundErrorHint path arrayIndexTypeMsg))
  | None =>
      if (idx <? 0) || (len arr <=? idx)
      then (0, Some (notFoundErrorHint path outOfRangeMsg))
      else (idx, None)
  end.

End PathErrors.

(** ** [strings.Split] with a one-byte separator *)

(** [strings.Split(s, sep)] for a separator of one byte: the pieces of [s]
    between the occurrences of [sep]; a string without [sep] (the empty
    string too) gives one piece. *)
Fixpoint strings_Split (s : string) (sep : ascii) : list string :=
  match s with
  | EmptyString => [EmptyString]
  | String c rest =>
      if Ascii.eqb c sep then EmptyString :: strings_Split rest sep
      else
        match strings_Split rest sep with
        | [] => [String c EmptyString]
        | piece :: pieces => String c piece :: pieces
        end
  end.

(** ** The backend: [kv.Storage] and [kv.Transaction]

    The package reaches the key-value engine only through these two Go
    interfaces, so the model is stated over any implementation of them.
    Only the methods the package calls are listed, together with
    [Valid] and [Rollback], in whose terms "rolled back" is stated.

    An iterator is the list of entries it still has to yield:
    [iter.Valid()] is "the list is not empty", [iter.Key()] the key of its
    head and [iter.Next()] its tail. *)
Class kvTransaction (T : Type) : Type := {
  (** [Get(ctx, k)]: the value, or [kv.ErrNotExist]. *)
  kv_Get : T -> string -> string * option error;
  (** [Set(k, v)]. *)
  kv_Set : T -> string -> string -> T * option error;
  (** [Delete(k)]. *)
  kv_Delete : T -> string -> T * option error;
  (** [Iter(k, upperBound)]: positioned on the first entry whose key is at
      least [k]; yields keys below [upperBound], all of them when
      [upperBound] is [nil]. *)
  kv_Iter : T -> string -> option string -> list (string * string) * option error;
  (** [Valid()]: false once the transaction is committed or rolled back. *)
  kv_Valid : T -> bool;
  (** [Rollback()]. *)
  kv_Rollback : T -> T * option error
}.

Class kvStorage (S T : Type) : Type := {
  (** [Begin()]: a transaction on the current committed state, or an
      error. *)
  kv_Begin : S -> error + T
}.

(** *** An in-memory backend *)

(** Modelled from the spec: the key-value engine is an external
    collaborator of the package and is not part of its sources; the
    contract below is the one of the spec's backend adapter (get returns
    the value or not-found, set is unconditional, delete fails when the key
    is absent, iteration is in byte-lexicographic key order, a transaction
    works on a snapshot of the committed state).  The tests of the package
    run against such a store. *)
Record memTxn : Type := {
  mt_snapshot : gmap string string;   (* committed state when it began *)
  mt_view : gmap string string;       (* the snapshot with this txn's writes *)
  mt_valid : bool
}.

Record memStorage : Type := {
  ms_committed : gmap string string;
  ms_begin_error : option error       (* set while the engine refuses Begin *)
}.

Definition key_le (a b : string * string) : Prop :=
  Is_true (String.leb (fst a) (fst b)).

#[global] Instance key_le_dec : RelDecision key_le.
Proof. intros a b. unfold key_le. apply _. Defined.

Definition in_range (k : string) (upperBound : option string)
    (e : string * string) : bool :=
  String.leb k (fst e) &&
  match upperBound with
  | None => true
  | Some u => String.ltb (fst e) u
  end.

Definition mem_Get (t : memTxn) (k : string) : string * option error :=
  match mt_view t !! k with
  | Some v => (v, None)
  | None => (EmptyString, Some kv_ErrNotExist)
  end.

Definition mem_Set (t : memTxn) (k v : string) : memTxn * option error :=
  ({| mt_snapshot := mt_snapshot t;
      mt_view := <[k := v]> (mt_view t);
      mt_valid := mt_valid t |}, None).

Definition mem_Delete (t : memTxn) (k : string) : memTxn * option error :=
  match mt_view t !! k with
  | Some _ =>
      ({| mt_snapshot := mt_snapshot t;
          mt_view := delete k (mt_view t);
          mt_valid := mt_valid t |}, None)
  | None => (t, Some kv_ErrNotExist)
  end.

Definition mem_Iter (t : memTxn) (k : string) (upperBound : option string)
  : list (string * string) * option error :=
  (merge_sort key_le
     (filter (fun e => Is_true (in_range k upperBound e))
        (map_to_list (mt_view t))), None).

Definition mem_Rollback (t : memTxn) : memTxn * option error :=
  if mt_valid t
  then ({| mt_snapshot := mt_snapshot t;
           mt_view := mt_snapshot t;
           mt_valid := false |}, None)
  else (t, Some (kv_OtherError "invalid transaction")).

Definition mem_Begin (s : memStorage) : error + memTxn :=
  match ms_begin_error s with
  | Some err => inl err
  | None =>
      inr {| mt_snapshot := ms_committed s;
             mt_view := ms_committed s;
             mt_valid := true |}
  end.

#[global] Instance memTxn_kv : kvTransaction memTxn := {
  kv_Get := mem_Get;
  kv_Set := mem_Set;
  kv_Delete := mem_Delete;
  kv_Iter := mem_Iter;
  kv_Valid := mt_valid;
  kv_Rollback := mem_Rollback
}.

#[global] Instance memStorage_kv : kvStorage memStorage memTxn := {
  kv_Begin := mem_Begin
}.

(** ** Transactions and the store *)

(** [storage.TriggerEvent]; [Commit] passes its zero value. *)
Inductive TriggerEvent : Type :=
  | TriggerEvent_zero.

(** [storage.TriggerConfig]: the [OnCommit] callback, a Go closure, stands
    for itself: the model records which closure is called, not what it
    does. *)
Record TriggerConfig : Type := {
  OnCommit : nat
}.

(** A [storage.Transaction] interface value: a [*transaction] of this
    package (its address), or a value of another dynamic type, of which
    only the type name matters ([%T]). *)
Inductive Transaction : Type :=
  | TikvTxn (p : positive)
  | OtherTxn (gotype : string).

(** One call of an [OnCommit] callback, with the arguments it received. *)
Inductive Call : Type :=
  | OnCommitCall (f : nat) (txn : Transaction) (event : TriggerEvent).

(** The [update] struct. *)
Record update : Type := {
  update_path : Path;
  update_remove : bool;
  update_value : Value
}.

(** [store.underlyingTxn]: the type assertion of [txn] to a pointer to
    [transaction]. *)
Definition underlyingTxn (txn : Transaction) : error + positive :=
  match txn with
  | TikvTxn underlying => inr underlying
  | OtherTxn gotype =>
      inl (storage_Error InvalidTransactionErr
             ("unexpected transaction type " +:+ gotype))
  end.

(** [transaction.updateRoot]. *)
Definition updateRoot (op : PatchOp) (value : Value) : option error :=
  if decide (op = RemoveOp) then Some (invalidPatchError rootCannotBeRemovedMsg)
  else
    match value with
    | VObject _ => None
    | _ => Some (invalidPatchError rootMustBeObjectMsg)
    end.

(** The loop of [transaction.Write] over the pending updates,
    [for curr := txn.updates.Front(); curr != nil; { ... }]: its body reads
    the element and never moves [curr], so one more turn finds the same
    [curr].  [None] is "still looping when the fuel ran out". *)
Fixpoint Write_scan (fuel : nat) (curr : list update) : option unit :=
  match curr with
  | [] => Some tt
  | _ :: _ =>
      match fuel with
      | O => None
      | Datatypes.S fuel' => Write_scan fuel' curr
      end
  end.

(** The loop of [transaction.ListPolicies]: [splitKey[1]] panics when the
    key has no ["/"]. *)
Fixpoint ListPolicies_loop (iter : list (string * string)) (ids : list string)
  : panic_value + list string :=
  match iter with
  | [] => inr ids
  | (kvKey, _) :: iter' =>
      let splitKey := strings_Split kvKey "/" in
      match splitKey !! 1%nat with
      | None => inl (PanicRuntime "index out of range [1] with length 1")
      | Some id => ListPolicies_loop iter' (ids ++ [id])
      end
  end.

Section Tikv.

Context {S T : Type} `{!kvTransaction T} `{!kvStorage S T}.

(** [strconv.Quote], the [%q] verb of [fmt.Sprintf]. *)
Variable strconv_Quote : string -> string.

(** [newUpdate] is called by [transaction.Write] and defined nowhere in
    the package. *)
Variable newUpdate : PatchOp -> Path -> Z -> Value -> error + update.

(** [util.RoundTrip], of package [util]: it marshals the value to JSON and
    decodes the text again with [UseNumber], in place.  It returns the
    decoded value, or the error of the encoder or of the decoder (an
    ill-formed [json.Number], for one). *)
Variable util_RoundTrip : Value -> Value * option error.

(** The [transaction] struct; [updates] is a [container/list], front
    first. *)
Record transaction : Type := {
  tikvtxn : T;
  updates : list update
}.

(** The [store] struct. *)
Record store : Type := {
  s_store : S;
  s_txn : option positive;
  s_triggers : gmap positive TriggerConfig
}.

(** What the program runs in: the store, the heap of transactions, the
    next free address, and the callbacks called so far. *)
Record World : Type := {
  w_store : store;
  w_heap : gmap positive transaction;
  w_next : positive;
  w_calls : list Call
}.

Inductive Outcome (A : Type) : Type :=
  | Returned (a : A) (w : World)
  | Panicked (v : panic_value) (w : World)
  | Looping.
Arguments Returned {A} a w.
Arguments Panicked {A} v w.
Arguments Looping {A}.

Definition M (A : Type) : Type := World -> Outcome A.

Definition ret {A} (a : A) : M A := fun w => Returned a w.

Definition bind {A B} (m : M A) (k : A -> M B) : M B :=
  fun w =>
    match m w with
    | Returned a w' => k a w'
    | Panicked v w' => Panicked v w'
    | Looping => Looping
    end.

Notation "x <- m ;; k" := (bind m (fun x => k))
  (at level 100, m at next level, right associativity).
Notation "m ;;; k" := (bind m (fun _ => k))
  (at level 100, right associativity).

Definition panic {A} (v : panic_value) : M A := fun w => Panicked v w.

Definition loop_forever {A} : M A := fun _ => Looping.

(** Reading through a [*transaction]; an address with no object behind it
    is Go's nil pointer. *)
Definition deref (p : positive) : M transaction :=
  fun w =>
    match w_heap w !! p with
    | Some t => Returned t w
    | None =>
        Panicked (PanicRuntime "invalid memory address or nil pointer dereference") w
    end.

Definition assign (p : positive) (t : transaction) : M unit :=
  fun w =>
    Returned tt {| w_store := w_store w;
                   w_heap := <[p := t]> (w_heap w);
                   w_next := w_next w;
                   w_calls := w_calls w |}.

(** Allocation of a fresh address ([&transaction{...}], [&handle{s}]). *)
Definition new : M positive :=
  fun w =>
    Returned (w_next w) {| w_store := w_store w;
                           w_heap := w_heap w;
                           w_next := Pos.succ (w_next w);
                           w_calls := w_calls w |}.

Definition the_store : M store := fun w => Returned (w_store w) w.

Definition set_triggers (m : gmap positive TriggerConfig) : M unit :=
  fun w =>
    Returned tt {| w_store := {| s_store := s_store (w_store w);
                                 s_txn := s_txn (w_store w);
                                 s_triggers := m |};
                   w_heap := w_heap w;
                   w_next := w_next w;
                   w_calls := w_calls w |}.

(** Calling a callback: the call is recorded. *)
Definition record_calls (cs : list Call) (w : World) : World :=
  {| w_store := w_store w;
     w_heap := w_heap w;
     w_next := w_next w;
     w_calls := w_calls w ++ cs |}.

Definition call (c : Call) : M unit :=
  fun w => Returned tt (record_calls [c] w).

(** *** Methods of [*transaction] *)

Definition transaction_Commit (tx : positive) : M (option error) :=
  ret (Some (fmt_Errorf "Not Implemented")).

Definition transaction_ListPolicies (txn : positive)
  : M (list string * option error) :=
  t <- deref txn ;;
  match kv_Iter (tikvtxn t) "policies/" None with
  | (_, Some err) => ret ([], Some err)
  | (iter, None) =>
      match ListPolicies_loop iter [] with
      | inl v => panic v
      | inr ids => ret (ids, None)
      end
  end.

Definition transaction_GetPolicy (txn : positive) (id : string)
  : M (string * option error) :=
  t <- deref txn ;;
  let keyStr := "policies/" +:+ id in
  let '(val, err) := kv_Get (tikvtxn t) keyStr in
  match err with
  | Some e =>
      if decide (e = kv_ErrNotExist)
      then ret (EmptyString, Some (notFoundErrorf ("policy id " +:+ strconv_Quote id)))
      else ret (val, None)
  | None => ret (val, None)
  end.

Definition transaction_UpsertPolicy (txn : positive) (id bs : string)
  : M (option error) :=
  t <- deref txn ;;
  let keyStr := "policies/" +:+ id in
  let '(kvtxn, err) := kv_Set (tikvtxn t) keyStr bs in
  assign txn {| tikvtxn := kvtxn; updates := updates t |} ;;;
  ret err.

Definition transaction_DeletePolicy (txn : positive) (id : string)
  : M (option error) :=
  t <- deref txn ;;
  let keyStr := "policies/" +:+ id in
  let '(kvtxn, err) := kv_Delete (tikvtxn t) keyStr in
  assign txn {| tikvtxn := kvtxn; updates := updates t |} ;;;
  ret err.

(** [transaction.Write].  The source passes [updateRoot] three arguments,
    two of them names of the caller; the call is read with the two
    parameters [updateRoot] declares, [op] and the value. *)
Definition transaction_Write (fuel : nat) (txn : positive) (op : PatchOp)
    (path : Path) (value : Value) : M (option error) :=
  match path with
  | [] => ret (updateRoot op value)
  | _ :: _ =>
      t <- deref txn ;;
      match Write_scan fuel (updates t) with
      | None => loop_forever
      | Some _ =>
          match newUpdate op path 0 value with
          | inl err => ret (Some err)
          | inr u =>
              assign txn {| tikvtxn := tikvtxn t; updates := u :: updates t |} ;;;
              ret None
          end
      end
  end.

(** *** Methods of [*store] *)

Definition store_NewTransaction : M (option Transaction * option error) :=
  s <- the_store ;;
  match kv_Begin (s_store s) with
  | inl err => ret (None, Some err)
  | inr txn =>
      p <- new ;;
      assign p {| tikvtxn := txn; updates := [] |} ;;;
      ret (Some (TikvTxn p), None)
  end.

Definition store_ListPolicies (txn : Transaction)
  : M (list string * option error) :=
  match underlyingTxn txn with
  | inl err => ret ([], Some err)
  | inr underlying => transaction_ListPolicies underlying
  end.

Definition store_GetPolicy (txn : Transaction) (id : string)
  : M (string * option error) :=
  match underlyingTxn txn with
  | inl err => ret (EmptyString, Some err)
  | inr underlying => transaction_GetPolicy underlying id
  end.

Definition store_UpsertPolicy (txn : Transaction) (id bs : string)
  : M (option error) :=
  match underlyingTxn txn with
  | inl err => ret (Some err)
  | inr underlying => transaction_UpsertPolicy underlying id bs
  end.

Definition store_DeletePolicy (txn : Transaction) (id : string)
  : M (option error) :=
  match underlyingTxn txn with
  | inl err => ret (Some err)
  | inr underlying => transaction_DeletePolicy underlying id
  end.

Definition store_Read (txn : Transaction) (path : Path)
  : M (option Value * option error) :=
  match underlyingTxn txn with
  | inl err => ret (None, Some err)
  | inr underlying => ret (None, Some (fmt_Errorf "Not Implemented"))
  end.

Definition store_Write (fuel : nat) (txn : Transaction) (op : PatchOp)
    (path : Path) (value : Value) : M (option error) :=
  match underlyingTxn txn with
  | inl err => ret (Some err)
  | inr underlying =>
      match util_RoundTrip value with
      | (_, Some err) => ret (Some err)
      | (ptrval, None) => transaction_Write fuel underlying op path ptrval
      end
  end.

Definition store_Abort (txn : Transaction) : M unit :=
  match underlyingTxn txn with
  | inl err => panic (PanicError err)
  | inr underlying => ret tt
  end.

(** [for _, t := range s.triggers { t.OnCommit(ctx, txn, event) }]; Go
    leaves the order of a map range unspecified, the model takes the
    order of [map_to_list]. *)
Fixpoint range_triggers (ts : list (positive * TriggerConfig))
    (txn : Transaction) (event : TriggerEvent) : M unit :=
  match ts with
  | [] => ret tt
  | (_, t) :: ts' =>
      call (OnCommitCall (OnCommit t) txn event) ;;;
      range_triggers ts' txn event
  end.

Definition runOnCommitTriggers (txn : Transaction) (event : TriggerEvent)
  : M unit :=
  s <- the_store ;;
  range_triggers (map_to_list (s_triggers s)) txn event.

(** The rest of [store.Commit] once [underlying.Commit(ctx)] has returned
    [err]: the abort and the error, or the triggers and nil. *)
Definition Commit_outcome (txn : Transaction) (err : option error)
  : M (option error) :=
  match err with
  | Some err =>
      store_Abort txn ;;;
      ret (Some err)
  | None =>
      runOnCommitTriggers txn TriggerEvent_zero ;;;
      ret None
  end.

Definition store_Commit (txn : Transaction) : M (option error) :=
  match underlyingTxn txn with
  | inl err => ret (Some err)
  | inr underlying =>
      err <- transaction_Commit underlying ;;
      Commit_outcome txn err
  end.

(** [store.Register]: [h := &handle{s}; s.triggers[h] = config]. *)
Definition store_Register (txn : Transaction) (config : TriggerConfig)
  : M (positive * option error) :=
  h <- new ;;
  s <- the_store ;;
  set_triggers (<[h := config]> (s_triggers s)) ;;;
  ret (h, None).

(** [handle.Unregister]: [delete(h.store.triggers, h)]. *)
Definition handle_Unregister (h : positive) (txn : Transaction) : M unit :=
  s <- the_store ;;
  set_triggers (delete h (s_triggers s)).

(** The [data] argument of [NewFromObject] as the value handed to
    [Write]: a map, or the nil map, which JSON writes as null, like nil. *)
Definition data_value (data : option (list (string * Value))) : Value :=
  match data with
  | Some fields => VObject fields
  | None => VNull
  end.

(** The body of [NewFromObject] after [New]: a transaction, the write of
    [data] at the root, the commit; the first error ends it. *)
Definition NewFromObject_body (data : option (list (string * Value)))
  : M (option error) :=
  r <- store_NewTransaction ;;
  match r with
  | (_, Some err) => ret (Some err)
  | (txn, None) =>
      let txn := default (OtherTxn "<nil>") txn in
      err <- store_Write 0 txn AddOp [] (data_value data) ;;
      match err with
      | Some err => ret (Some err)
      | None =>
          err <- store_Commit txn ;;
          match err with
          | Some err => ret (Some err)
          | None => ret None
          end
      end
  end.

End Tikv.

Arguments Returned {S T A} a w.
Arguments Panicked {S T A} v w.
Arguments Looping {S T A}.

(** The result of a run that returned. *)
Definition returned {S T A : Type} (o : Outcome (S:=S) (T:=T) A) : option A :=
  match o with
  | Returned a _ => Some a
  | _ => None
  end.

(** The world a run from [w] ends in ([w] itself when it never ends). *)
Definition world_after {S T A : Type} (m : M (S:=S) (T:=T) A)
    (w : World (S:=S) (T:=T)) : World (S:=S) (T:=T) :=
  match m w with
  | Returned _ w' => w'
  | Panicked _ w' => w'
  | Looping => w
  end.

(** [New(s)]: a store on [s] with no trigger; nothing is allocated and no
    callback has been called. *)
Definition New {S T : Type} (s : S) : World (S:=S) (T:=T) :=
  {| w_store := {| s_store := s; s_txn := None; s_triggers := ∅ |};
     w_heap := ∅;
     w_next := 1%positive;
     w_calls := [] |}.

(** [NewFromObject(s, data)]: the error it returns; the store it returns
    with a nil error is the world the run ends in. *)
Definition NewFromObject {S T : Type} `{!kvStorage S T}
    (newUpdate : PatchOp -> Path -> Z -> Value -> error + update)
    (util_RoundTrip : Value -> Value * option error)
    (s : S) (data : option (list (string * Value)))
  : Outcome (S:=S) (T:=T) (option error) :=
  NewFromObject_body newUpdate util_RoundTrip data (New s).

(** ** Instances used to run the model *)

(** [storage.Path.String] as the package's example prints it:
    ["/users/1/color"] for the path [users, 1, color]. *)
Fixpoint slash_join (path : Path) : string :=
  match path with
  | [] => EmptyString
  | seg :: path' => "/" +:+ seg +:+ slash_join path'
  end.

Definition slash_Path_String (path : Path) : string :=
  match path with
  | [] => "/"
  | _ => slash_join path
  end.

(** [strconv.Quote] on printable ASCII text without quotes or backslashes:
    the text between two double quotes. *)
Definition ascii_Quote (s : string) : string :=
  String (ascii_of_nat 34) (s +:+ String (ascii_of_nat 34) EmptyString).

(** Modelled from the spec: [newUpdate] is missing from the sources; the
    spec's PendingUpdate records the path, the operation and the value of a
    write. *)
Definition record_update (op : PatchOp) (path : Path) (idx : Z) (value : Value)
  : error + update :=
  inr {| update_path := path;
         update_remove := bool_decide (op = RemoveOp);
         update_value := value |}.

(** [isValidNumber] of [encoding/json]: an optional minus, an integer part
    without a leading zero, an optional fraction, an optional exponent. *)
Fixpoint skip_digits (s : string) : string :=
  match s with
  | String c rest => if is_digit c then skip_digits rest else s
  | EmptyString => s
  end.

Definition number_fraction (s : string) : string :=
  match s with
  | String dot (String d rest) =>
      if Ascii.eqb dot "." && is_digit d then skip_digits rest else s
  | _ => s
  end.

Definition number_exponent (s : string) : option string :=
  match s with
  | String e (String c rest) =>
      if Ascii.eqb e "e" || Ascii.eqb e "E" then
        if Ascii.eqb c "+" || Ascii.eqb c "-" then
          match rest with
          | EmptyString => None
          | _ => Some (skip_digits rest)
          end
        else Some (skip_digits (String c rest))
      else Some s
  | _ => Some s
  end.

Definition number_integer (s : string) : option string :=
  match s with
  | EmptyString => None
  | String c rest =>
      if Ascii.eqb c "0" then Some rest
      else if is_digit c then Some (skip_digits rest)
      else None
  end.

Definition isValidNumber (s : string) : bool :=
  match s with
  | EmptyString => false
  | String c rest =>
      match number_integer (if Ascii.eqb c "-" then rest else s) with
      | None => false
      | Some s1 =>
          match number_exponent (number_fraction s1) with
          | Some EmptyString => true
          | _ => false
          end
      end
  end.

(** [util.RoundTrip] on documents whose strings and keys are valid UTF-8
    and which the decoder's depth limit admits: the encoder refuses an
    ill-formed [json.Number] (the first one it meets) and writes the empty
    one as 0; everything else comes back as it was. *)
Fixpoint json_round_trip (quote : string -> string) (v : Value) : error + Value :=
  match v with
  | VNumber literal =>
      match literal with
      | EmptyString => inr (VNumber "0")
      | _ =>
          if isValidNumber literal then inr v
          else inl (fmt_Errorf ("json: invalid number literal " +:+ quote literal))
      end
  | VArray elems =>
      match
        (fix each (l : list Value) : error + list Value :=
           match l with
           | [] => inr []
           | x :: l' =>
               match json_round_trip quote x with
               | inl e => inl e
               | inr x' =>
                   match each l' with
                   | inl e => inl e
                   | inr l'' => inr (x' :: l'')
                   end
               end
           end) elems
      with
      | inl e => inl e
      | inr elems' => inr (VArray elems')
      end
  | VObject fields =>
      match
        (fix each (l : list (string * Value)) : error + list (string * Value) :=
           match l with
           | [] => inr []
           | (k, x) :: l' =>
               match json_round_trip quote x with
               | inl e => inl e
               | inr x' =>
                   match each l' with
                   | inl e => inl e
                   | inr l'' => inr ((k, x') :: l'')
                   end
               end
           end) fields
      with
      | inl e => inl e
      | inr fields' => inr (VObject fields')
      end
  | _ => inr v
  end.

Definition json_RoundTrip (value : Value) : Value * option error :=
  match json_round_trip ascii_Quote value with
  | inl err => (value, Some err)
  | inr value' => (value', None)
  end.

(** A backend that is out of reach: every call on a transaction fails with
    its own error, and [Get] still hands back some bytes with it. *)
Inductive downTxn : Type :=
  | DownTxn.

#[global] Instance downTxn_kv : kvTransaction downTxn := {
  kv_Get := fun _ _ => ("stale", Some (kv_OtherError "region unavailable"));
  kv_Set := fun t _ _ => (t, Some (kv_OtherError "region unavailable"));
  kv_Delete := fun t _ => (t, Some (kv_OtherError "region unavailable"));
  kv_Iter := fun _ _ _ => ([], Some (kv_OtherError "region unavailable"));
  kv_Valid := fun _ => true;
  kv_Rollback := fun t => (t, Some (kv_OtherError "region unavailable"))
}.

(** Its engine: [Begin] hands out such a transaction. *)
Inductive downStorage : Type :=
  | DownStorage.

#[global] Instance downStorage_kv : kvStorage downStorage downTxn := {
  kv_Begin := fun _ => inr DownTxn
}.

(** An engine with the given committed state that accepts [Begin]. *)
Definition mem_store (committed : gmap string string) : memStorage :=
  {| ms_committed := committed; ms_begin_error := None |}.

Notation "x <- m ;; k" := (bind m (fun x => k))
  (at level 100, m at next level, right associativity).
Notation "m ;;; k" := (bind m (fun _ => k))
  (at level 100, right associativity).

(** ** The operations of the store that take a transaction *)

Inductive StoreOp : Type :=
  | OpRead (path : Path)
  | OpWrite (op : PatchOp) (path : Path) (value : Value)
  | OpCommit
  | OpAbort
  | OpListPolicies
  | OpGetPolicy (id : string)
  | OpUpsertPolicy (id bs : string)
  | OpDeletePolicy (id : string).

Section Dispatch.

Context {S T : Type} `{!kvTransaction T} `{!kvStorage S T}.
Variable strconv_Quote : string -> string.
Variable newUpdate : PatchOp -> Path -> Z -> Value -> error + update.
Variable util_RoundTrip : Value -> Value * option error.

(** The operation run on [txn], and the [error] it hands back to its
    caller.  [Abort] has no result: when it returns there is no error. *)
Definition error_result (fuel : nat) (o : StoreOp) (txn : Transaction)
  : M (S:=S) (T:=T) (option error) :=
  match o with
  | OpRead path => r <- store_Read txn path ;; ret (snd r)
  | OpWrite op path value => store_Write newUpdate util_RoundTrip fuel txn op path value
  | OpCommit => store_Commit txn
  | OpAbort => store_Abort txn ;;; ret None
  | OpListPolicies => r <- store_ListPolicies txn ;; ret (snd r)
  | OpGetPolicy id => r <- store_GetPolicy strconv_Quote txn id ;; ret (snd r)
  | OpUpsertPolicy id bs => store_UpsertPolicy txn id bs
  | OpDeletePolicy id => store_DeletePolicy txn id
  end.

(** The operation as the specification has it: called with a handle this
    store did not produce, it returns an InvalidTransaction error. *)
Definition returns_InvalidTransaction (fuel : nat) (o : StoreOp)
    (gotype : string) (w : World (S:=S) (T:=T)) : Prop :=
  exists msg w',
    error_result fuel o (OtherTxn gotype) w
    = Returned (Some (storage_Error InvalidTransactionErr msg)) w'.

(** [NewTransaction] followed by [k] on the new handle ([None] when the
    engine refused to begin). *)
Definition in_new_transaction {A} (k : Transaction -> M (S:=S) (T:=T) A)
  : M (option A) :=
  r <- store_NewTransaction ;;
  match fst r with
  | Some txn => a <- k txn ;; ret (Some a)
  | None => ret None
  end.

End Dispatch.

(** The calls one run of the trigger loop makes for the registered
    triggers [m]: one per entry of the map. *)
Definition trigger_calls (m : gmap positive TriggerConfig) (txn : Transaction)
    (event : TriggerEvent) : list Call :=
  (fun e => OnCommitCall (OnCommit (snd e)) txn event) <$> map_to_list m.

(** ** Policy ids, as the specification speaks of them *)

(** [s] without the prefix [pre], when it has it. *)
Fixpoint strip_prefix (pre s : string) : option string :=
  match pre, s with
  | EmptyString, _ => Some s
  | String a pre', String b s' =>
      if Ascii.eqb a b then strip_prefix pre' s' else None
  | String _ _, EmptyString => None
  end.

(** The ids of the policies stored in a key/value state: what follows
    ["policies/"] in each key that has this prefix, in key order. *)
Definition policy_ids (state : gmap string string) : list string :=
  omap (fun e => strip_prefix "policies/" (fst e))
       (merge_sort key_le (map_to_list state)).

(** Whether the byte [c] occurs in [s]. *)
Fixpoint contains_byte (c : ascii) (s : string) : bool :=
  match s with
  | EmptyString => false
  | String b s' => Ascii.eqb b c || contains_byte c s'
  end.

(** A state in which every key from ["policies/"] on is the key of a
    policy whose id has no slash. *)
Definition policy_keys_only (state : gmap string string) : Prop :=
  forall k v, state !! k = Some v -> String.leb "policies/" k = true ->
    exists id, k = "policies/" +:+ id /\ contains_byte "/" id = false.

(** ** Notions the specification speaks of *)

(** A string of decimal digits and the number it writes. *)
Inductive DigitString : string -> Z -> Prop :=
  | DigitString_nil : DigitString EmptyString 0
  | DigitString_cons c s n :
      is_digit c = true ->
      DigitString s n ->
      DigitString (String c s)
        (digit_val c * 10 ^ Z.of_nat (String.length s) + n).

(** A decimal integer: an optional sign and at least one digit. *)
Inductive DecimalInteger : string -> Z -> Prop :=
  | Decimal_unsigned s n :
      s <> EmptyString -> DigitString s n -> DecimalInteger s n
  | Decimal_plus s n :
      s <> EmptyString -> DigitString s n -> DecimalInteger (String "+" s) n
  | Decimal_minus s n :
      s <> EmptyString -> DigitString s n -> DecimalInteger (String "-" s) (- n).

(** The integer fits Go's [int]. *)
Definition fits_int (n : Z) : Prop := minInt <= n <= maxInt.

(** The contract of [validateArrayIndex] as the specification words it:
    the "must be integer" hint for a segment that is not a decimal integer,
    the "out of range" hint for an integer outside [[0, length)], the index
    otherwise. *)
Definition validateArrayIndex_spec (Path_String : Path -> string)
    (arr : list Value) (s : string) (path : Path) : Prop :=
  ((~ exists n, DecimalInteger s n) ->
     validateArrayIndex Path_String arr s path
     = (0, Some (notFoundErrorHint Path_String path arrayIndexTypeMsg)))
  /\ (forall n, DecimalInteger s n -> ~ (0 <= n < len arr) ->
     validateArrayIndex Path_String arr s path
     = (0, Some (notFoundErrorHint Path_String path outOfRangeMsg)))
  /\ (forall n, DecimalInteger s n -> 0 <= n < len arr ->
     validateArrayIndex Path_String arr s path = (n, None)).

(** ** Further notions used to state what the code does *)

(** Every address in use, of a trigger handle or of a transaction, lies
    below the next free one: Go's allocation never hands out an address
    that is in use. *)
Definition well_formed {S T : Type} (w : World (S:=S) (T:=T)) : Prop :=
  forall a : positive,
    is_Some (s_triggers (w_store w) !! a) \/ is_Some (w_heap w !! a) ->
    (a < w_next w)%positive.

(** [id] is the text of [k] between its first slash and its second one,
    or the end of [k] when it has one slash only. *)
Definition between_slashes (k id : string) : Prop :=
  exists a rest,
    k = a +:+ String "/" (id +:+ rest)
    /\ contains_byte "/" a = false
    /\ contains_byte "/" id = false
    /\ (rest = EmptyString \/ exists r, rest = String "/" r).

(** The key under which the policy [id] is stored. *)
Definition policy_key (id : string) : string := "policies/" +:+ id.

(** A list of strings in byte-lexicographic order. *)
Definition ids_sorted (ids : list string) : Prop :=
  StronglySorted (fun a b => Is_true (String.leb a b)) ids.

(** ** Worlds used to run the model *)

(** The transaction [NewTransaction] makes on an in-memory engine. *)
Definition mem_txn (committed : gmap string string) : transaction (T:=memTxn) :=
  {| tikvtxn := {| mt_snapshot := committed; mt_view := committed; mt_valid := true |};
     updates := [] |}.

(** A store on an in-memory engine, with one transaction open, at
    address 1. *)
Definition mem_world (committed : gmap string string)
  : World (S:=memStorage) (T:=memTxn) :=
  world_after store_NewTransaction (New (mem_store committed)).

(** The same with one trigger registered, at address 2. *)
Definition one_trigger_world : World (S:=memStorage) (T:=memTxn) :=
  world_after (store_Register (OtherTxn "nil") {| OnCommit := 7 |}) (mem_world ∅).

(** A store on the engine out of reach, with one transaction open, at
    address 1. *)
Definition down_world : World (S:=downStorage) (T:=downTxn) :=
  world_after store_NewTransaction (New DownStorage).

(** Two policies, [a] and [b], and nothing else. *)
Definition two_policies : gmap string string :=
  <["policies/b" := "package b"]> (<["policies/a" := "package a"]> ∅).

(** * Properties *)

(** ** [strconv.Atoi] against the notion of a decimal integer *)

Lemma is_digit_not_sign c :
  is_digit c = true -> Ascii.eqb c "-" = false /\ Ascii.eqb c "+" = false.
Proof.
  intros Hd. split.
  - destruct (Ascii.eqb_spec c "-") as [->|]; [discriminate Hd | reflexivity].
  - destruct (Ascii.eqb_spec c "+") as [->|]; [discriminate Hd | reflexivity].
Qed.

Lemma atoi_digits_sound s : forall a v,
  atoi_digits a s = Some v ->
  exists n, DigitString s n /\ v = a * 10 ^ Z.of_nat (String.length s) + n.
Proof.
  induction s as [|c s IH]; intros a v Hv; simpl in Hv.
  - injection Hv as <-. exists 0. split; [constructor | simpl; lia].
  - destruct (is_digit c) eqn:Hc; [|discriminate].
    apply IH in Hv as (n & Hn & ->).
    eexists. split; [constructor; eassumption|].
    cbn [String.length]. rewrite Nat2Z.inj_succ, Z.pow_succ_r by lia. ring.
Qed.

Lemma atoi_digits_complete s n :
  DigitString s n ->
  forall a, atoi_digits a s = Some (a * 10 ^ Z.of_nat (String.length s) + n).
Proof.
  induction 1 as [|c s n Hc _ IH]; intros a; simpl.
  - f_equal. lia.
  - rewrite Hc, IH. f_equal.
    rewrite Nat2Z.inj_succ, Z.pow_succ_r by lia. ring.
Qed.

Lemma atoi_digits_iff s n :
  atoi_digits 0 s = Some n <-> DigitString s n.
Proof.
  split.
  - intros H. apply atoi_digits_sound in H as (m & Hm & ->). exact Hm.
  - intros H. rewrite (atoi_digits_complete _ _ H). f_equal.
Qed.

(** [Atoi] parses exactly the decimal integers, to their value. *)
Lemma atoi_parse_iff s n :
  atoi_parse s = Some n <-> DecimalInteger s n.
Proof.
  split.
  - destruct s as [|c rest]; simpl; [discriminate|].
    destruct (Ascii.eqb_spec c "-") as [->|Hm].
    { destruct rest as [|c' r]; [discriminate|].
      intros H. destruct (atoi_digits 0 (String c' r)) as [m|] eqn:Hd;
        [|discriminate].
      injection H as <-. apply Decimal_minus; [discriminate|].
      now apply atoi_digits_iff. }
    destruct (Ascii.eqb_spec c "+") as [->|Hp].
    { destruct rest as [|c' r]; [discriminate|].
      intros H. apply Decimal_plus; [discriminate|].
      now apply atoi_digits_iff. }
    intros H. apply Decimal_unsigned; [discriminate|].
    now apply atoi_digits_iff.
  - intros [s' n' Hne Hd | s' n' Hne Hd | s' n' Hne Hd].
    + destruct Hd as [|c r m Hc Hd]; [congruence|].
      unfold atoi_parse.
      destruct (is_digit_not_sign c Hc) as [-> ->].
      apply atoi_digits_iff. now constructor.
    + apply atoi_digits_iff in Hd. simpl.
      destruct s'; [congruence | exact Hd].
    + apply atoi_digits_iff in Hd. simpl.
      destruct s'; [congruence | now rewrite Hd].
Qed.

Lemma DecimalInteger_functional s n m :
  DecimalInteger s n -> DecimalInteger s m -> n = m.
Proof. rewrite <- !atoi_parse_iff. congruence. Qed.

(** [Atoi] succeeds exactly on the decimal integers that fit an [int]. *)
Lemma strconv_Atoi_ok s n :
  strconv_Atoi s = (n, None) <-> DecimalInteger s n /\ fits_int n.
Proof.
  unfold strconv_Atoi, fits_int. rewrite <- atoi_parse_iff.
  destruct (atoi_parse s) as [m|]; [|split; [discriminate | intros [? _]; discriminate]].
  destruct (Z.ltb_spec m minInt); [split; [discriminate | intros [[= ->] ?]; lia]|].
  destruct (Z.ltb_spec maxInt m); [split; [discriminate | intros [[= ->] ?]; lia]|].
  split.
  - intros [= ->]. split; [reflexivity | lia].
  - intros [[= ->] _]. reflexivity.
Qed.

Lemma strconv_Atoi_error s :
  (~ exists n, DecimalInteger s n /\ fits_int n) ->
  exists v e, strconv_Atoi s = (v, Some e).
Proof.
  intros Hno. destruct (strconv_Atoi s) as [v [e|]] eqn:H; [eauto|].
  exfalso. apply Hno. exists v. now apply strconv_Atoi_ok.
Qed.

(** ** [validateArrayIndex] *)

Section ValidateArrayIndex.

Variable Path_String : Path -> string.

Lemma validateArrayIndex_Atoi_error arr s path v e :
  strconv_Atoi s = (v, Some e) ->
  validateArrayIndex Path_String arr s path
  = (0, Some (notFoundErrorHint Path_String path arrayIndexTypeMsg)).
Proof. unfold validateArrayIndex. now intros ->. Qed.

Lemma validateArrayIndex_Atoi_ok arr s path idx :
  strconv_Atoi s = (idx, None) ->
  validateArrayIndex Path_String arr s path
  = if (idx <? 0) || (len arr <=? idx)
    then (0, Some (notFoundErrorHint Path_String path outOfRangeMsg))
    else (idx, None).
Proof. unfold validateArrayIndex. now intros ->. Qed.

(** C9, amended: a segment that is not a decimal integer fitting Go's
    [int] (an optional sign, then digits, with a value in
    [[-2^63, 2^63)]) gets the NotFound error with the hint "array index
    must be integer"; such an integer outside [[0, length)] gets the
    NotFound error with the hint "array index out of range"; such an
    integer inside [[0, length)] is returned with a nil error. *)
Theorem validateArrayIndex_cases (arr : list Value) (s : string) (path : Path) :
  ((~ exists n, DecimalInteger s n /\ fits_int n) ->
     validateArrayIndex Path_String arr s path
     = (0, Some (storage_Error NotFoundErr
                   (Path_String path +:+ ": " +:+ "array index must be integer"))))
  /\ (forall n, DecimalInteger s n -> fits_int n -> ~ (0 <= n < len arr) ->
     validateArrayIndex Path_String arr s path
     = (0, Some (storage_Error NotFoundErr
                   (Path_String path +:+ ": " +:+ "array index out of range"))))
  /\ (forall n, DecimalInteger s n -> fits_int n -> 0 <= n < len arr ->
     validateArrayIndex Path_String arr s path = (n, None)).
Proof.
  split; [|split].
  - intros Hno. destruct (strconv_Atoi_error s Hno) as (v & e & He).
    now rewrite (validateArrayIndex_Atoi_error _ _ _ _ _ He).
  - intros n Hn Hfit Hout.
    rewrite (validateArrayIndex_Atoi_ok _ _ _ n)
      by (apply strconv_Atoi_ok; now split).
    destruct (Z.ltb_spec n 0); [reflexivity|].
    destruct (Z.leb_spec (len arr) n); [reflexivity | lia].
  - intros n Hn Hfit Hin.
    rewrite (validateArrayIndex_Atoi_ok _ _ _ n)
      by (apply strconv_Atoi_ok; now split).
    destruct (Z.ltb_spec n 0); [lia|].
    destruct (Z.leb_spec (len arr) n); [lia | reflexivity].
Qed.

End ValidateArrayIndex.

(** The three cases of [validateArrayIndex_cases] on the array
    [[null, null]]: the segment [x], the segment [2], the segment [1]. *)
Lemma validateArrayIndex_cases_witness :
  validateArrayIndex slash_Path_String [VNull; VNull] "x" ["a"; "x"]
  = (0, Some (storage_Error NotFoundErr "/a/x: array index must be integer"))
  /\ validateArrayIndex slash_Path_String [VNull; VNull] "2" ["a"; "2"]
  = (0, Some (storage_Error NotFoundErr "/a/2: array index out of range"))
  /\ validateArrayIndex slash_Path_String [VNull; VNull] "1" ["a"; "1"]
  = (1, None).
Proof.
  split; [|split].
  - apply (proj1 (validateArrayIndex_cases slash_Path_String
                    [VNull; VNull] "x" ["a"; "x"])).
    intros (n & Hn & _). apply atoi_parse_iff in Hn. discriminate Hn.
  - apply (proj1 (proj2 (validateArrayIndex_cases slash_Path_String
                           [VNull; VNull] "2" ["a"; "2"])) 2).
    + now apply atoi_parse_iff.
    + unfold fits_int. vm_compute. split; discriminate.
    + unfold len. simpl. lia.
  - apply (proj2 (proj2 (validateArrayIndex_cases slash_Path_String
                           [VNull; VNull] "1" ["a"; "1"])) 1).
    + now apply atoi_parse_iff.
    + unfold fits_int. vm_compute. split; discriminate.
    + unfold len. simpl. lia.
Defined.

(** C9 as stated fails: [9223372036854775808] (2^63) is a decimal integer
    outside [[0, length)] of the empty array, and [validateArrayIndex]
    answers with the hint "array index must be integer", not "array index
    out of range", because [Atoi] rejects what does not fit an [int]. *)
Lemma validateArrayIndex_spec_counterexample :
  ~ validateArrayIndex_spec slash_Path_String [] "9223372036854775808"
      ["a"; "9223372036854775808"].
Proof.
  intros (_ & Hrange & _).
  specialize (Hrange (2 ^ 63)).
  assert (Hdec : DecimalInteger "9223372036854775808" (2 ^ 63))
    by now apply atoi_parse_iff.
  specialize (Hrange Hdec).
  assert (Hout : ~ (0 <= 2 ^ 63 < len (@nil Value))) by (unfold len; simpl; lia).
  specialize (Hrange Hout).
  vm_compute in Hrange. discriminate Hrange.
Qed.

(** ** The store *)

Section StoreProperties.

Context {S T : Type} `{!kvTransaction T} `{!kvStorage S T}.
Variable strconv_Quote : string -> string.
Variable newUpdate : PatchOp -> Path -> Z -> Value -> error + update.
Variable util_RoundTrip : Value -> Value * option error.

Implicit Types (w : World (S:=S) (T:=T)) (p : positive).

(** *** Writes at the root *)

Lemma updateRoot_remove value :
  updateRoot RemoveOp value = Some (invalidPatchError rootCannotBeRemovedMsg).
Proof. reflexivity. Qed.

Lemma updateRoot_object op fields :
  op <> RemoveOp -> updateRoot op (VObject fields) = None.
Proof. intros Hop. unfold updateRoot. now destruct (decide (op = RemoveOp)). Qed.

Lemma updateRoot_not_object op value :
  op <> RemoveOp ->
  (forall fields, value <> VObject fields) ->
  updateRoot op value = Some (invalidPatchError rootMustBeObjectMsg).
Proof.
  intros Hop Hv. unfold updateRoot.
  destruct (decide (op = RemoveOp)); [contradiction|].
  destruct value; try reflexivity. now contradiction (Hv fields).
Qed.

(** A write at the root returns the error of [util.RoundTrip] when there is
    one, goes to [updateRoot] with the value that came back otherwise, and
    touches nothing. *)
Lemma store_Write_root fuel p op value w :
  store_Write newUpdate util_RoundTrip fuel (TikvTxn p) op [] value w
  = Returned
      match util_RoundTrip value with
      | (_, Some err) => Some err
      | (ptrval, None) => updateRoot op ptrval
      end w.
Proof.
  unfold store_Write. simpl.
  now destruct (util_RoundTrip value) as [ptrval [err|]].
Qed.

(** C4, amended: whatever the state of the store and of the transaction,
    [Write] with [RemoveOp] and the empty path returns the InvalidPatch
    error "root cannot be removed" for every value that [util.RoundTrip]
    accepts, and the error of [util.RoundTrip] for a value it rejects; in
    both cases nothing is changed. *)
Theorem Write_remove_root fuel p (value : Value) w :
  (forall ptrval,
     util_RoundTrip value = (ptrval, None) ->
     store_Write newUpdate util_RoundTrip fuel (TikvTxn p) RemoveOp [] value w
     = Returned (Some (storage_Error InvalidPatchErr "root cannot be removed")) w)
  /\ (forall ptrval err,
     util_RoundTrip value = (ptrval, Some err) ->
     store_Write newUpdate util_RoundTrip fuel (TikvTxn p) RemoveOp [] value w
     = Returned (Some err) w).
Proof.
  split; intros; rewrite store_Write_root.
  - now rewrite H.
  - now rewrite H.
Qed.

(** Replacing the root by a value that comes back from the round trip as
    something else than an object is refused. *)
Lemma Write_replace_root_not_object fuel p (value ptrval : Value) w :
  util_RoundTrip value = (ptrval, None) ->
  (forall fields, ptrval <> VObject fields) ->
  store_Write newUpdate util_RoundTrip fuel (TikvTxn p) ReplaceOp [] value w
  = Returned (Some (storage_Error InvalidPatchErr "root must be object")) w.
Proof.
  intros Hrt Hv. rewrite store_Write_root, Hrt, updateRoot_not_object; done.
Qed.

(** *** [Read] *)

(** [Read] on a transaction of this package: nil and "Not Implemented",
    whatever was written before. *)
Lemma store_Read_not_implemented p path w :
  store_Read (TikvTxn p) path w
  = Returned (None, Some (fmt_Errorf "Not Implemented")) w.
Proof. reflexivity. Qed.

(** C5, second half, on the code: after a [Write] that replaces the root
    by an object, whatever that write answered, the world is as it was
    (nothing is stored) and the [Read] of the root returns nil with the
    error "Not Implemented"; when the object comes back from the round
    trip as an object, the write was accepted, and the read still does
    not return it. *)
Theorem Read_after_replace_root fuel p fields w :
  (e <- store_Write newUpdate util_RoundTrip fuel (TikvTxn p) ReplaceOp []
          (VObject fields) ;;
   r <- store_Read (TikvTxn p) [] ;;
   ret (e, r)) w
  = Returned
      (match util_RoundTrip (VObject fields) with
       | (_, Some err) => Some err
       | (ptrval, None) => updateRoot ReplaceOp ptrval
       end,
       (None, Some (fmt_Errorf "Not Implemented"))) w
  /\ (forall fields',
        util_RoundTrip (VObject fields) = (VObject fields', None) ->
        (e <- store_Write newUpdate util_RoundTrip fuel (TikvTxn p) ReplaceOp []
                (VObject fields) ;;
         r <- store_Read (TikvTxn p) [] ;;
         ret (e, r)) w
        = Returned (None, (None, Some (fmt_Errorf "Not Implemented"))) w).
Proof.
  assert (Hrun : forall e0,
    (match util_RoundTrip (VObject fields) with
     | (_, Some err) => Some err
     | (ptrval, None) => updateRoot ReplaceOp ptrval
     end) = e0 ->
    (e <- store_Write newUpdate util_RoundTrip fuel (TikvTxn p) ReplaceOp []
            (VObject fields) ;;
     r <- store_Read (TikvTxn p) [] ;;
     ret (e, r)) w
    = Returned (e0, (None, Some (fmt_Errorf "Not Implemented"))) w).
  { intros e0 <-. unfold bind. now rewrite store_Write_root. }
  split; [now apply Hrun|].
  intros fields' Hrt. apply Hrun. now rewrite Hrt.
Qed.

(** *** [Commit] and [Abort] *)

Lemma store_Abort_returns p w :
  store_Abort (TikvTxn p) w = Returned tt w.
Proof. reflexivity. Qed.

Lemma transaction_Commit_fails p w :
  transaction_Commit p w = Returned (Some (fmt_Errorf "Not Implemented")) w.
Proof. reflexivity. Qed.

(** After a failed commit of the underlying transaction, [Commit] calls
    [Abort] with the handle it was given and hands the error back as it
    is. *)
Lemma Commit_outcome_failure txn err w :
  Commit_outcome txn (Some err) w = (store_Abort txn ;;; ret (Some err)) w.
Proof. reflexivity. Qed.

(** [Commit] never returns nil: the branch that runs the triggers is not
    reached. *)
Lemma store_Commit_never_succeeds txn w :
  exists err, store_Commit txn w = Returned (Some err) w.
Proof. destruct txn; eexists; reflexivity. Qed.

(** [NewFromObject], which the package's tests build their stores with,
    never returns a store. *)
Lemma NewFromObject_never_succeeds (s : S) data :
  forall w', NewFromObject (T:=T) newUpdate util_RoundTrip s data <> Returned None w'.
Proof.
  intros w'. unfold NewFromObject, NewFromObject_body, store_NewTransaction,
    bind, the_store. simpl.
  destruct (kv_Begin s) as [err|txn]; simpl; [discriminate|].
  unfold store_Write. simpl.
  destruct (util_RoundTrip (data_value data)) as [ptrval [err|]]; simpl;
    [discriminate|].
  destruct (updateRoot AddOp ptrval); discriminate.
Qed.

(** *** Handles of another type, handles of the package's type *)

(** C8, amended: called with a handle whose dynamic type is not this
    package's transaction, [Read], [Write], [Commit] and the four policy
    operations return the InvalidTransaction error "unexpected
    transaction type T" and change nothing; [Abort], which has no error
    result, panics with that same error.  The check looks at the type
    only: a handle of the package's type passes it whichever store made
    the transaction, and even when there is no transaction behind it;
    [Read] and [Commit] then answer "Not Implemented" and [Abort]
    returns. *)
Theorem foreign_transaction_rejected fuel (o : StoreOp) (gotype : string) w :
  error_result strconv_Quote newUpdate util_RoundTrip fuel o (OtherTxn gotype) w
  = match o with
    | OpAbort =>
        Panicked (PanicError (storage_Error InvalidTransactionErr
                                ("unexpected transaction type " +:+ gotype))) w
    | _ =>
        Returned (Some (storage_Error InvalidTransactionErr
                          ("unexpected transaction type " +:+ gotype))) w
    end
  /\ (forall p path,
        underlyingTxn (TikvTxn p) = inr p
        /\ error_result strconv_Quote newUpdate util_RoundTrip fuel
             (OpRead path) (TikvTxn p) w
           = Returned (Some (fmt_Errorf "Not Implemented")) w
        /\ error_result strconv_Quote newUpdate util_RoundTrip fuel
             OpCommit (TikvTxn p) w
           = Returned (Some (fmt_Errorf "Not Implemented")) w
        /\ error_result strconv_Quote newUpdate util_RoundTrip fuel
             OpAbort (TikvTxn p) w
           = Returned None w).
Proof. split; [destruct o; reflexivity|]. intros p path. repeat split. Qed.

End StoreProperties.

(** The two cases of [Write_remove_root] on a new transaction: nil, the
    value the package's test removes the root with, and an ill-formed
    number. *)
Lemma Write_remove_root_witness :
  store_Write record_update json_RoundTrip 0 (TikvTxn 1%positive) RemoveOp []
    VNull (mem_world ∅)
  = Returned (Some (storage_Error InvalidPatchErr "root cannot be removed"))
      (mem_world ∅)
  /\ store_Write record_update json_RoundTrip 0 (TikvTxn 1%positive) RemoveOp []
       (VNumber "abc") (mem_world ∅)
     = Returned
         (Some (fmt_Errorf ("json: invalid number literal " +:+ ascii_Quote "abc")))
         (mem_world ∅).
Proof.
  split.
  - apply (proj1 (Write_remove_root record_update json_RoundTrip 0 1%positive
                    VNull (mem_world ∅)) VNull).
    reflexivity.
  - apply (proj2 (Write_remove_root record_update json_RoundTrip 0 1%positive
                    (VNumber "abc") (mem_world ∅)) (VNumber "abc")).
    reflexivity.
Defined.

(** C4 as stated fails: with the ill-formed number [abc] as its value,
    [Write] with [RemoveOp] and the empty path returns the encoder's error,
    not InvalidPatch. *)
Lemma Write_remove_root_counterexample :
  ~ exists w',
      store_Write record_update json_RoundTrip 0 (TikvTxn 1%positive) RemoveOp []
        (VNumber "abc") (mem_world ∅)
      = Returned (Some (storage_Error InvalidPatchErr "root cannot be removed")) w'.
Proof. intros (w' & H). vm_compute in H. discriminate H. Qed.

(** Replacing the root by the empty object on a new transaction is
    accepted, and the read that follows returns nothing. *)
Lemma Read_after_replace_root_witness :
  (e <- store_Write record_update json_RoundTrip 0 (TikvTxn 1%positive)
          ReplaceOp [] (VObject []) ;;
   r <- store_Read (TikvTxn 1%positive) [] ;;
   ret (e, r)) (mem_world ∅)
  = Returned (None, (None, Some (fmt_Errorf "Not Implemented"))) (mem_world ∅).
Proof.
  apply (proj2 (Read_after_replace_root record_update json_RoundTrip 0
                  1%positive [] (mem_world ∅)) []).
  reflexivity.
Defined.

(** C8 as stated fails for [Abort]: given a handle of the in-memory store's
    transaction type it does not return an error, it panics. *)
Lemma Abort_foreign_transaction_counterexample :
  ~ returns_InvalidTransaction (S:=memStorage) (T:=memTxn)
      ascii_Quote record_update json_RoundTrip 0 OpAbort "*inmem.transaction"
      (New (mem_store ∅)).
Proof. intros (msg & w' & H). discriminate H. Qed.

(** It fails as well for a handle of the package's type that this store
    did not make (here one with no transaction behind it): [Commit]
    answers "Not Implemented", not InvalidTransaction. *)
Lemma package_typed_handle_accepted :
  store_Commit (S:=memStorage) (T:=memTxn) (TikvTxn 99%positive)
    (New (mem_store ∅))
  = Returned (Some (fmt_Errorf "Not Implemented")) (New (mem_store ∅))
  /\ w_heap (New (S:=memStorage) (T:=memTxn) (mem_store ∅)) !! 99%positive = None.
Proof. split; reflexivity. Qed.


(** ** Writes below the root and the reads that follow *)

Section StoreRuns.

Context {S T : Type} `{!kvTransaction T} `{!kvStorage S T}.
Variable newUpdate : PatchOp -> Path -> Z -> Value -> error + update.
Variable util_RoundTrip : Value -> Value * option error.

Implicit Types (w : World (S:=S) (T:=T)) (p : positive).

(** C1, on the code: after a [Write] with [AddOp] that returned nil, [Read]
    of the same path in the same transaction returns nil and the error
    "Not Implemented", not the value written. *)
Theorem Read_after_Write_add fuel p (path : Path) (value : Value) w w1 :
  store_Write newUpdate util_RoundTrip fuel (TikvTxn p) AddOp path value w = Returned None w1 ->
  store_Read (TikvTxn p) path w1
  = Returned (None, Some (fmt_Errorf "Not Implemented")) w1.
Proof. intros _. apply store_Read_not_implemented. Qed.

(** With a pending update in the list, the loop of [Write] never exits:
    no amount of fuel lets a second write below the root return. *)
Lemma Write_scan_loops fuel u us : Write_scan fuel (u :: us) = None.
Proof. induction fuel as [|fuel IH]; [reflexivity | exact IH]. Qed.

Lemma transaction_Write_loops fuel p t op seg path value w :
  w_heap w !! p = Some t ->
  updates t <> [] ->
  transaction_Write newUpdate fuel p op (seg :: path) value w = Looping.
Proof.
  intros Hp Hu. unfold transaction_Write, bind, deref. rewrite Hp. cbn.
  destruct (updates t) as [|u us]; [congruence|].
  now rewrite Write_scan_loops.
Qed.

(** The first write below the root returns with any fuel: on an empty
    list the loop exits at once. *)
Lemma transaction_Write_first fuel p t op seg path value u w :
  w_heap w !! p = Some t ->
  updates t = [] ->
  newUpdate op (seg :: path) 0 value = inr u ->
  exists w',
    transaction_Write newUpdate fuel p op (seg :: path) value w
    = Returned None w'
    /\ w_heap w' = <[p := {| tikvtxn := tikvtxn t; updates := [u] |}]> (w_heap w)
    /\ w_store w' = w_store w
    /\ w_calls w' = w_calls w.
Proof.
  intros Hp Hu Hn. unfold transaction_Write, bind, deref. rewrite Hp. cbn.
  rewrite Hu.
  assert (Hs : Write_scan fuel [] = Some tt) by (destruct fuel; reflexivity).
  rewrite Hs, Hn. cbn. eexists. repeat split; reflexivity.
Qed.

End StoreRuns.

(** A first write on a new transaction returns nil, so
    [Read_after_Write_add] applies to the [Read] that follows it. *)
Lemma Read_after_Write_add_witness :
  let w0 : World (S:=memStorage) (T:=memTxn) :=
    world_after store_NewTransaction (New (mem_store ∅)) in
  let w1 :=
    world_after (store_Write record_update json_RoundTrip 1 (TikvTxn 1%positive) AddOp ["a"]
                   (VString "x")) w0 in
  store_Write record_update json_RoundTrip 1 (TikvTxn 1%positive) AddOp ["a"] (VString "x") w0
  = Returned None w1
  /\ store_Read (TikvTxn 1%positive) ["a"] w1
     = Returned (None, Some (fmt_Errorf "Not Implemented")) w1.
Proof.
  intros w0 w1.
  assert (Hw : store_Write record_update json_RoundTrip 1 (TikvTxn 1%positive) AddOp ["a"]
                 (VString "x") w0 = Returned None w1)
    by (vm_compute; reflexivity).
  split; [exact Hw|].
  exact (Read_after_Write_add record_update json_RoundTrip 1 1%positive ["a"]
           (VString "x") w0 w1 Hw).
Defined.

(** ** Triggers *)

Section Triggers.

Context {S T : Type} `{!kvTransaction T} `{!kvStorage S T}.

Implicit Types (w : World (S:=S) (T:=T)) (m : gmap positive TriggerConfig).

Lemma record_calls_nil w : record_calls [] w = w.
Proof. destruct w. unfold record_calls. simpl. now rewrite app_nil_r. Qed.

Lemma record_calls_app cs cs' w :
  record_calls cs' (record_calls cs w) = record_calls (cs ++ cs') w.
Proof. unfold record_calls. simpl. now rewrite app_assoc. Qed.

Lemma range_triggers_calls ts txn event w :
  range_triggers ts txn event w
  = Returned tt
      (record_calls
         ((fun e => OnCommitCall (OnCommit (snd e)) txn event) <$> ts) w).
Proof.
  revert w. induction ts as [|[h t] ts IH]; intros w.
  - simpl. now rewrite record_calls_nil.
  - simpl. unfold bind, call. rewrite IH, record_calls_app. reflexivity.
Qed.

(** The trigger loop calls [OnCommit] once for each entry of the trigger
    map and does nothing else. *)
Lemma runOnCommitTriggers_calls txn event w :
  runOnCommitTriggers txn event w
  = Returned tt
      (record_calls (trigger_calls (s_triggers (w_store w)) txn event) w).
Proof. unfold runOnCommitTriggers, bind, the_store. apply range_triggers_calls. Qed.

Lemma trigger_calls_length m txn event :
  length (trigger_calls m txn event) = size m.
Proof.
  unfold trigger_calls. now rewrite length_fmap, length_map_to_list.
Qed.



(** [Unregister] removes the handle from the trigger map. *)
Lemma handle_Unregister_removes h txn w :
  exists w',
    handle_Unregister h txn w = Returned tt w'
    /\ s_triggers (w_store w') = delete h (s_triggers (w_store w))
    /\ s_triggers (w_store w') !! h = None
    /\ w_calls w' = w_calls w.
Proof.
  eexists. split; [reflexivity|]. simpl. repeat split.
  apply lookup_delete_eq.
Qed.


End Triggers.

(** With a trigger registered, the [Commit] of a new transaction on a
    working engine returns the error "Not Implemented"; the trigger is
    still registered and its [OnCommit] has not been called. *)
Example Commit_runs_no_trigger :
  let prog : M (S:=memStorage) (T:=memTxn) _ :=
    in_new_transaction (fun txn =>
      r <- store_Register txn {| OnCommit := 7 |} ;;
      e <- store_Commit txn ;;
      ret (fst r, e)) in
  let w := New (mem_store ∅) in
  returned (prog w) = Some (Some (2%positive, Some (fmt_Errorf "Not Implemented")))
  /\ s_triggers (w_store (world_after prog w)) !! 2%positive
     = Some {| OnCommit := 7 |}
  /\ w_calls (world_after prog w) = [].
Proof. vm_compute. repeat split. Qed.


(** C10, on the code: a [Write] followed by [Abort] on a new transaction
    leaves the backend transaction valid, not rolled back, and the pending
    update in the transaction's list: [Abort] changes nothing at all. *)
Theorem Abort_does_not_roll_back :
  let prog : M (S:=memStorage) (T:=memTxn) _ :=
    in_new_transaction (fun txn =>
      e <- store_Write record_update json_RoundTrip 1 txn AddOp ["a"] (VString "x") ;;
      store_Abort txn ;;;
      ret e) in
  let w := New (mem_store ∅) in
  returned (prog w) = Some (Some None)
  /\ (kv_Valid <$> (tikvtxn <$> w_heap (world_after prog w) !! 1%positive))
     = Some true
  /\ (updates <$> w_heap (world_after prog w) !! 1%positive)
     = Some [ {| update_path := ["a"];
                 update_remove := false;
                 update_value := VString "x" |} ]
  /\ w_calls (world_after prog w) = [].
Proof. vm_compute. repeat split. Qed.

(** ** Key order and the listing of policies *)

(** The byte-lexicographic order of keys is transitive and total. *)
Lemma string_leb_trans s1 : forall s2 s3,
  String.leb s1 s2 = true -> String.leb s2 s3 = true -> String.leb s1 s3 = true.
Proof.
  unfold String.leb.
  induction s1 as [|c1 s1 IH]; intros [|c2 s2] [|c3 s3]; simpl; try done.
  unfold Ascii.compare.
  destruct (N.compare_spec (N_of_ascii c1) (N_of_ascii c2)) as [E12|L12|G12];
    destruct (N.compare_spec (N_of_ascii c2) (N_of_ascii c3)) as [E23|L23|G23];
    try done.
  - rewrite E12, E23, N.compare_refl. apply IH.
  - intros _ _. rewrite E12. now apply N.compare_lt_iff in L23 as ->.
  - intros _ _. rewrite <- E23. now apply N.compare_lt_iff in L12 as ->.
  - intros _ _. assert (H : (N_of_ascii c1 < N_of_ascii c3)%N) by lia.
    now apply N.compare_lt_iff in H as ->.
Qed.

#[global] Instance key_le_trans : Transitive key_le.
Proof.
  intros a b c. unfold key_le. rewrite !Is_true_true. apply string_leb_trans.
Qed.

#[global] Instance key_le_total : Total key_le.
Proof.
  intros a b. unfold key_le. rewrite !Is_true_true. apply String.leb_total.
Qed.

Lemma strings_Split_no_sep sep s :
  contains_byte sep s = false -> strings_Split s sep = [s].
Proof.
  induction s as [|c s IH]; simpl; [reflexivity|].
  intros [Hc Hs]%orb_false_elim. rewrite Hc, (IH Hs). reflexivity.
Qed.

Lemma split_policy_key id :
  contains_byte "/" id = false ->
  strings_Split ("policies/" +:+ id) "/" !! 1%nat = Some id.
Proof.
  intros H. simpl. change (EmptyString +:+ id) with id.
  now rewrite (strings_Split_no_sep _ _ H).
Qed.

Lemma strip_policy_key id : strip_prefix "policies/" ("policies/" +:+ id) = Some id.
Proof. reflexivity. Qed.

Lemma strip_prefix_app pre : forall k x,
  strip_prefix pre k = Some x -> k = pre +:+ x.
Proof.
  induction pre as [|a pre IH]; intros k x; simpl.
  - now intros [= ->].
  - destruct k as [|b k]; [discriminate|].
    destruct (Ascii.eqb_spec a b) as [->|]; [|discriminate].
    intros H. now rewrite (IH _ _ H).
Qed.

Lemma leb_prefix pre x : String.leb pre (pre +:+ x) = true.
Proof.
  unfold String.leb. induction pre as [|a pre IH]; simpl.
  - now destruct x.
  - unfold Ascii.compare. rewrite N.compare_refl. exact IH.
Qed.

Lemma StronglySorted_filter {A} (R : relation A) (P : A -> Prop)
    `{!forall x, Decision (P x)} l :
  StronglySorted R l -> StronglySorted R (filter P l).
Proof.
  induction 1 as [|x l Hl IH Hx]; [constructor|].
  rewrite filter_cons. destruct (decide (P x)); [|exact IH].
  constructor; [exact IH|].
  rewrite Forall_forall in Hx |- *.
  intros y [_ Hy]%list_elem_of_filter. now apply Hx.
Qed.

(** Sorting the entries of a map commutes with filtering them: keys are
    distinct, so the sorted list is unique. *)
Lemma merge_sort_filter (P : string * string -> Prop)
    `{!forall x, Decision (P x)} (m : gmap string string) :
  merge_sort key_le (filter P (map_to_list m))
  = filter P (merge_sort key_le (map_to_list m)).
Proof.
  apply StronglySorted_unique_strong with (R := key_le).
  - intros [k1 v1] [k2 v2] H1 H2 Hle Hge.
    rewrite merge_sort_Permutation in H1.
    apply list_elem_of_filter in H1 as [_ H1].
    apply list_elem_of_filter in H2 as [_ H2].
    rewrite merge_sort_Permutation in H2.
    apply elem_of_map_to_list in H1, H2.
    unfold key_le in Hle, Hge. simpl in Hle, Hge.
    apply Is_true_true in Hle, Hge.
    pose proof (String.leb_antisym _ _ Hle Hge) as ->. congruence.
  - apply StronglySorted_merge_sort; apply _.
  - apply StronglySorted_filter, StronglySorted_merge_sort; apply _.
  - now rewrite !merge_sort_Permutation.
Qed.

Lemma ListPolicies_loop_policy_keys (l : list (string * string)) :
  (forall e, e ∈ l -> String.leb "policies/" (fst e) = true ->
     exists id, fst e = "policies/" +:+ id /\ contains_byte "/" id = false) ->
  forall ids,
  ListPolicies_loop (filter (fun e => Is_true (in_range "policies/" None e)) l) ids
  = inr (ids ++ omap (fun e => strip_prefix "policies/" (fst e)) l).
Proof.
  induction l as [|[k v] l IH]; intros Hl ids.
  - simpl. now rewrite app_nil_r.
  - rewrite filter_cons.
    assert (Hl' : forall e, e ∈ l -> String.leb "policies/" (fst e) = true ->
       exists id, fst e = "policies/" +:+ id /\ contains_byte "/" id = false).
    { intros e He. apply Hl. now right. }
    specialize (IH Hl').
    destruct (decide (Is_true (in_range "policies/" None (k, v)))) as [Hin|Hout].
    + unfold in_range in Hin. simpl in Hin. rewrite andb_true_r in Hin.
      apply Is_true_true in Hin.
      destruct (Hl (k, v) ltac:(left) Hin) as (id & Hk & Hid).
      simpl in Hk. subst k. cbn [ListPolicies_loop].
      rewrite (split_policy_key _ Hid), IH.
      cbn [omap list_omap fst]. rewrite strip_policy_key.
      now rewrite <- app_assoc.
    + rewrite IH. cbn [omap list_omap fst].
      destruct (strip_prefix "policies/" k) as [x|] eqn:Hx; [|reflexivity].
      exfalso. apply Hout. unfold in_range. simpl. rewrite andb_true_r.
      apply Is_true_true. apply strip_prefix_app in Hx as ->. apply leb_prefix.
Qed.

(** On a state with policy keys only, [ListPolicies] returns the policy ids
    in key order. *)
Lemma store_ListPolicies_policy_keys p (t : transaction (T:=memTxn))
    (w : World (S:=memStorage) (T:=memTxn)) :
  w_heap w !! p = Some t ->
  policy_keys_only (mt_view (tikvtxn t)) ->
  store_ListPolicies (TikvTxn p) w
  = Returned (policy_ids (mt_view (tikvtxn t)), None) w.
Proof.
  intros Hp Hkeys.
  unfold store_ListPolicies, transaction_ListPolicies, bind, deref. simpl.
  rewrite Hp. simpl. rewrite merge_sort_filter.
  rewrite ListPolicies_loop_policy_keys; [reflexivity|].
  intros [k v] He Hle. rewrite merge_sort_Permutation in He.
  apply elem_of_map_to_list in He. exact (Hkeys k v He Hle).
Qed.

Lemma policy_keys_only_insert state id bs :
  contains_byte "/" id = false ->
  policy_keys_only state ->
  policy_keys_only (<["policies/" +:+ id := bs]> state).
Proof.
  intros Hid Hst k v. rewrite lookup_insert.
  destruct (decide ("policies/" +:+ id = k)) as [<-|Hne].
  - intros _ _. now exists id.
  - apply Hst.
Qed.

Lemma elem_of_policy_ids state id v :
  state !! ("policies/" +:+ id) = Some v -> id ∈ policy_ids state.
Proof.
  intros Hst. unfold policy_ids. apply list_elem_of_omap.
  exists ("policies/" +:+ id, v). split; [|apply strip_policy_key].
  rewrite merge_sort_Permutation. now apply elem_of_map_to_list.
Qed.

(** On such a state, a policy upserted under an id without a slash is
    listed. *)
Lemma ListPolicies_after_UpsertPolicy p (t : transaction (T:=memTxn)) id bs
    (w : World (S:=memStorage) (T:=memTxn)) :
  w_heap w !! p = Some t ->
  policy_keys_only (mt_view (tikvtxn t)) ->
  contains_byte "/" id = false ->
  exists ids w',
    (e <- store_UpsertPolicy (TikvTxn p) id bs ;;
     r <- store_ListPolicies (TikvTxn p) ;;
     ret (e, r)) w
    = Returned (None, (ids, None)) w'
    /\ id ∈ ids.
Proof.
  intros Hp Hkeys Hid.
  unfold bind at 1. unfold store_UpsertPolicy, transaction_UpsertPolicy,
    bind, deref, assign, ret. simpl. rewrite Hp. simpl.
  match goal with
  | |- context [store_ListPolicies _ ?w1] =>
      rewrite (store_ListPolicies_policy_keys p
                 {| tikvtxn := fst (mem_Set (tikvtxn t) ("policies/" +:+ id) bs);
                    updates := updates t |} w1)
  end.
  - eexists _, _. split; [reflexivity|].
    simpl. eapply elem_of_policy_ids. apply lookup_insert_eq.
  - simpl. apply lookup_insert_eq.
  - simpl. now apply policy_keys_only_insert.
Qed.

(** ** Policies on the in-memory engine *)

Section MemPolicies.

Variable strconv_Quote : string -> string.

Implicit Types (w : World (S:=memStorage) (T:=memTxn)) (p : positive).

(** What [UpsertPolicy] stores is what [GetPolicy] returns. *)
Lemma GetPolicy_after_UpsertPolicy p t id bs w :
  w_heap w !! p = Some t ->
  exists w',
    (e <- store_UpsertPolicy (TikvTxn p) id bs ;;
     r <- store_GetPolicy strconv_Quote (TikvTxn p) id ;;
     ret (e, r)) w
    = Returned (None, (bs, None)) w'.
Proof.
  intros Hp. eexists.
  unfold store_UpsertPolicy, store_GetPolicy, transaction_UpsertPolicy,
    transaction_GetPolicy, bind, deref, assign, ret. simpl.
  rewrite Hp. simpl. rewrite lookup_insert_eq. simpl.
  unfold mem_Get. simpl. rewrite lookup_insert_eq. reflexivity.
Qed.

(** After [DeletePolicy], [GetPolicy] fails with NotFound, whether the
    policy was there or not. *)
Lemma GetPolicy_after_DeletePolicy p t id w :
  w_heap w !! p = Some t ->
  exists e w',
    (e <- store_DeletePolicy (TikvTxn p) id ;;
     r <- store_GetPolicy strconv_Quote (TikvTxn p) id ;;
     ret (e, r)) w
    = Returned (e, (EmptyString,
                    Some (storage_Error NotFoundErr
                            ("policy id " +:+ strconv_Quote id)))) w'.
Proof.
  intros Hp.
  unfold store_DeletePolicy, store_GetPolicy, transaction_DeletePolicy,
    transaction_GetPolicy, bind, deref, assign, ret. simpl.
  rewrite Hp. simpl. unfold mem_Delete.
  destruct (mt_view (tikvtxn t) !! ("policies/" +:+ id)) as [v|] eqn:Hv.
  - simpl. rewrite lookup_insert_eq. simpl. unfold mem_Get. simpl.
    rewrite lookup_delete_eq. simpl. eexists _, _. reflexivity.
  - simpl. rewrite lookup_insert_eq. simpl. unfold mem_Get. simpl.
    rewrite Hv. simpl. eexists _, _. reflexivity.
Qed.

End MemPolicies.

(** C3, on the code: with the one policy [a/b] stored under
    [policies/a/b], [ListPolicies] returns the id [a], the second piece of
    the key split at every slash, where the policy ids under the prefix
    are [a/b]. *)
Theorem ListPolicies_cuts_id_at_slash :
  let state : gmap string string := {[ "policies/a/b" := "package a.b" ]} in
  returned (in_new_transaction store_ListPolicies (New (mem_store state)))
  = Some (Some (["a"], None))
  /\ policy_ids state = ["a/b"].
Proof. vm_compute. split; reflexivity. Qed.

(** The iterator is opened at [policies/] with no upper bound: a key past
    the prefix is listed too, and one without a slash makes [splitKey[1]]
    panic. *)
Example ListPolicies_past_the_prefix :
  let state : gmap string string :=
    <[ "policies/p" := "package p" ]> {[ "zone/q" := "1" ]} in
  returned (in_new_transaction store_ListPolicies (New (mem_store state)))
  = Some (Some (["p"; "q"], None))
  /\ policy_ids state = ["p"].
Proof. vm_compute. split; reflexivity. Qed.

Example ListPolicies_panics :
  let state : gmap string string :=
    <[ "policies/p" := "package p" ]> {[ "zone" := "1" ]} in
  in_new_transaction store_ListPolicies (New (mem_store state))
  = Panicked (PanicRuntime "index out of range [1] with length 1")
      (world_after store_NewTransaction (New (mem_store state))).
Proof. vm_compute. reflexivity. Qed.

(** C7, on the code: in a new transaction, after [UpsertPolicy] of the id
    [a/b], [GetPolicy] returns the bytes stored, [ListPolicies] returns
    [a] and so does not include [a/b]; after [DeletePolicy], [GetPolicy]
    fails with NotFound. *)
Theorem policy_with_slash_not_listed :
  let prog : M (S:=memStorage) (T:=memTxn) _ :=
    in_new_transaction (fun txn =>
      e1 <- store_UpsertPolicy txn "a/b" "package a.b" ;;
      g1 <- store_GetPolicy ascii_Quote txn "a/b" ;;
      l <- store_ListPolicies txn ;;
      e2 <- store_DeletePolicy txn "a/b" ;;
      g2 <- store_GetPolicy ascii_Quote txn "a/b" ;;
      ret (e1, g1, l, e2, snd g2)) in
  returned (prog (New (mem_store ∅)))
  = Some (Some (None, ("package a.b", None), (["a"], None), None,
                Some (storage_Error NotFoundErr
                        ("policy id " +:+ ascii_Quote "a/b"))))
  /\ "a/b" ∉ ["a"].
Proof.
  split; [vm_compute; reflexivity|].
  intros Hin. apply list_elem_of_singleton in Hin. discriminate Hin.
Qed.

(** * Further properties of the package *)

(** ** The store, its transactions and its roots *)

Section MoreStore.

Context {S T : Type} `{!kvTransaction T} `{!kvStorage S T}.
Variable strconv_Quote : string -> string.
Variable newUpdate : PatchOp -> Path -> Z -> Value -> error + update.
Variable util_RoundTrip : Value -> Value * option error.

Implicit Types (w : World (S:=S) (T:=T)) (p : positive).

(** X1: [NewFromObject] never returns a store.  For every engine and every
    data object, the nil map included, it returns an error: the error of
    [Begin] when the engine refuses the transaction; else the error of
    [util.RoundTrip] when it rejects the data; else "root must be object"
    when the data do not come back as an object (the nil map comes back
    as null); else "Not Implemented", from the commit.  No trigger is
    registered and no callback is called. *)
Theorem NewFromObject_fails (s : S) (data : option (list (string * Value))) :
  exists err w',
    NewFromObject (T:=T) newUpdate util_RoundTrip s data = Returned (Some err) w'
    /\ err = match kv_Begin s with
             | inl e => e
             | inr _ =>
                 match util_RoundTrip (data_value data) with
                 | (_, Some e) => e
                 | (VObject _, None) => fmt_Errorf "Not Implemented"
                 | (_, None) => storage_Error InvalidPatchErr "root must be object"
                 end
             end
    /\ s_triggers (w_store w') = ∅
    /\ w_calls w' = [].
Proof.
  unfold NewFromObject, NewFromObject_body, store_NewTransaction, bind,
    the_store. simpl.
  destruct (kv_Begin s) as [err|kvtxn] eqn:Hb; simpl.
  { eexists _, _. split; [reflexivity|]. repeat split. }
  unfold store_Write. simpl.
  destruct (util_RoundTrip (data_value data)) as [ptrval [err|]]; simpl.
  { eexists _, _. split; [reflexivity|]. destruct ptrval; repeat split. }
  destruct ptrval; simpl; eexists _, _; (split; [reflexivity|]); repeat split.
Qed.

(** X2: once a write below the root has put an update on the transaction's
    list, the next write below the root on the same transaction never
    returns when [util.RoundTrip] accepts its value: with any fuel the two
    writes in sequence are still looping.  (The first write puts its
    update on the list when [util.RoundTrip] accepts its value and
    [newUpdate] makes an update of what came back.) *)
Theorem second_Write_never_returns fuel1 fuel2 p t op1 op2 seg1 path1 seg2 path2
    (value1 value2 ptrval1 ptrval2 : Value) u w :
  w_heap w !! p = Some t ->
  util_RoundTrip value1 = (ptrval1, None) ->
  newUpdate op1 (seg1 :: path1) 0 ptrval1 = inr u ->
  util_RoundTrip value2 = (ptrval2, None) ->
  (store_Write newUpdate util_RoundTrip fuel1 (TikvTxn p) op1 (seg1 :: path1) value1 ;;;
   store_Write newUpdate util_RoundTrip fuel2 (TikvTxn p) op2 (seg2 :: path2) value2) w
  = Looping.
Proof.
  intros Hp Hrt1 Hu Hrt2.
  assert (Hw : forall fuel op seg path value ptrval w0,
    util_RoundTrip value = (ptrval, None) ->
    store_Write newUpdate util_RoundTrip fuel (TikvTxn p) op (seg :: path) value w0
    = transaction_Write newUpdate fuel p op (seg :: path) ptrval w0).
  { intros fuel op seg path value ptrval w0 Hrt. unfold store_Write. simpl.
    now rewrite Hrt. }
  unfold bind at 1. rewrite (Hw _ _ _ _ _ _ _ Hrt1).
  destruct (updates t) as [|u0 us] eqn:Hup.
  - destruct (transaction_Write_first newUpdate fuel1 p t op1 seg1 path1
                ptrval1 u w Hp Hup Hu) as (w' & Hrun & Hheap & _).
    rewrite Hrun, (Hw _ _ _ _ _ _ _ Hrt2).
    apply (transaction_Write_loops newUpdate fuel2 p
             {| tikvtxn := tikvtxn t; updates := [u] |}).
    + rewrite Hheap. apply lookup_insert_eq.
    + discriminate.
  - rewrite (transaction_Write_loops newUpdate fuel1 p t); [reflexivity|exact Hp|].
    rewrite Hup. discriminate.
Qed.

(** X3: [Write] never reaches the backend.  Whatever its arguments, when
    it returns (or panics) the store and its triggers, the callback log and
    the backend transaction of every transaction are what they were; only
    a transaction's list of updates can have changed. *)
Theorem store_Write_leaves_backend fuel txn op path (value : Value) w :
  match store_Write newUpdate util_RoundTrip fuel txn op path value w with
  | Returned _ w' | Panicked _ w' =>
      w_store w' = w_store w
      /\ w_calls w' = w_calls w
      /\ w_next w' = w_next w
      /\ forall q, tikvtxn <$> (w_heap w' !! q) = tikvtxn <$> (w_heap w !! q)
  | Looping => True
  end.
Proof.
  destruct txn as [p|gotype]; [|simpl; auto].
  unfold store_Write. simpl.
  destruct (util_RoundTrip value) as [ptrval [rterr|]]; [simpl; auto|].
  destruct path as [|seg path]; [simpl; auto|].
  simpl. unfold bind, deref.
  destruct (w_heap w !! p) as [t|] eqn:Hp; [|simpl; auto].
  destruct (Write_scan fuel (updates t)); [|exact I].
  destruct (newUpdate op (seg :: path) 0 ptrval) as [err|upd]; simpl; [auto|].
  repeat split. intros q. destruct (decide (p = q)) as [<-|Hne].
  - now rewrite lookup_insert_eq, Hp.
  - now rewrite lookup_insert_ne.
Qed.

(** X4: a write at the root changes nothing and returns nil exactly when
    [util.RoundTrip] accepts the value, the operation is not [RemoveOp]
    and what came back from the round trip is an object ([AddOp] and
    [ReplaceOp] are treated alike). *)
Theorem Write_root_accepted_iff fuel p op (value : Value) w :
  exists err,
    store_Write newUpdate util_RoundTrip fuel (TikvTxn p) op [] value w
    = Returned err w
    /\ (err = None
        <-> op <> RemoveOp
            /\ exists fields, util_RoundTrip value = (VObject fields, None)).
Proof.
  eexists. split; [apply store_Write_root|].
  destruct (util_RoundTrip value) as [ptrval [rterr|]].
  { split; [discriminate | intros [_ [f Hf]]; discriminate Hf]. }
  unfold updateRoot. destruct (decide (op = RemoveOp)) as [->|Hop].
  { split; [discriminate | intros [? _]; congruence]. }
  destruct ptrval;
    (split; [try discriminate; intros _; split; eauto
            | try reflexivity; intros [_ [f Hf]]; discriminate Hf]).
Qed.

(** X5: [GetPolicy] leaves the world as it is.  When the backend's [Get] of
    [policies/<id>] fails with [kv.ErrNotExist] it returns nil bytes and
    the NotFound error "policy id <quoted id>"; in every other case,
    success or any other error of the backend, it returns the bytes the
    backend handed back and a nil error: an error of the backend other
    than [kv.ErrNotExist] is dropped. *)
Theorem GetPolicy_errors p t id w :
  w_heap w !! p = Some t ->
  exists val err,
    store_GetPolicy strconv_Quote (TikvTxn p) id w = Returned (val, err) w
    /\ (snd (kv_Get (tikvtxn t) ("policies/" +:+ id)) = Some kv_ErrNotExist ->
          val = EmptyString
          /\ err = Some (storage_Error NotFoundErr
                           ("policy id " +:+ strconv_Quote id)))
    /\ (snd (kv_Get (tikvtxn t) ("policies/" +:+ id)) <> Some kv_ErrNotExist ->
          val = fst (kv_Get (tikvtxn t) ("policies/" +:+ id))
          /\ err = None).
Proof.
  intros Hp. unfold store_GetPolicy, transaction_GetPolicy, bind, deref.
  simpl. rewrite Hp.
  destruct (kv_Get (tikvtxn t) ("policies/" +:+ id)) as [val [e|]]; simpl.
  - destruct (decide (e = kv_ErrNotExist)) as [->|Hne].
    + eexists _, _. split; [reflexivity|]. split; [auto | congruence].
    + eexists _, _. split; [reflexivity|].
      split; [intros [= ->]; congruence | auto].
  - eexists _, _. split; [reflexivity|]. split; [discriminate | auto].
Qed.

(** X6: [UpsertPolicy] and [DeletePolicy] return the error of the
    backend's [Set] and [Delete] of the key [policies/<id>] unchanged, put
    the resulting backend transaction in place of the old one, and leave
    the transaction's updates, every other transaction, the store and the
    callback log untouched. *)
Theorem policy_writes_are_confined p t id bs w :
  w_heap w !! p = Some t ->
  (exists w1,
     store_UpsertPolicy (TikvTxn p) id bs w
     = Returned (snd (kv_Set (tikvtxn t) ("policies/" +:+ id) bs)) w1
     /\ w_heap w1
        = <[p := {| tikvtxn := fst (kv_Set (tikvtxn t) ("policies/" +:+ id) bs);
                    updates := updates t |}]> (w_heap w)
     /\ w_store w1 = w_store w /\ w_calls w1 = w_calls w
     /\ forall q, q <> p -> w_heap w1 !! q = w_heap w !! q)
  /\ (exists w2,
     store_DeletePolicy (TikvTxn p) id w
     = Returned (snd (kv_Delete (tikvtxn t) ("policies/" +:+ id))) w2
     /\ w_heap w2
        = <[p := {| tikvtxn := fst (kv_Delete (tikvtxn t) ("policies/" +:+ id));
                    updates := updates t |}]> (w_heap w)
     /\ w_store w2 = w_store w /\ w_calls w2 = w_calls w
     /\ forall q, q <> p -> w_heap w2 !! q = w_heap w !! q).
Proof.
  intros Hp. split.
  - unfold store_UpsertPolicy, transaction_UpsertPolicy, bind, deref. simpl.
    rewrite Hp.
    destruct (kv_Set (tikvtxn t) ("policies/" +:+ id) bs) as [kvtxn err]. simpl.
    eexists. split; [reflexivity|]. simpl. repeat split.
    intros q Hq. now rewrite lookup_insert_ne.
  - unfold store_DeletePolicy, transaction_DeletePolicy, bind, deref. simpl.
    rewrite Hp.
    destruct (kv_Delete (tikvtxn t) ("policies/" +:+ id)) as [kvtxn err]. simpl.
    eexists. split; [reflexivity|]. simpl. repeat split.
    intros q Hq. now rewrite lookup_insert_ne.
Qed.

End MoreStore.

Section MoreValidate.
Variable Path_String : Path -> string.

(** X7: when [validateArrayIndex] returns a nil error, the index it
    returns is within the bounds of the array and is the number the
    segment writes in decimal; when it returns an error, the index is 0. *)
Theorem validateArrayIndex_sound (arr : list Value) (s : string) (path : Path)
    (idx : Z) (err : option error) :
  validateArrayIndex Path_String arr s path = (idx, err) ->
  (err = None -> 0 <= idx < len arr /\ DecimalInteger s idx)
  /\ (err <> None -> idx = 0).
Proof.
  unfold validateArrayIndex.
  destruct (strconv_Atoi s) as [n [e|]] eqn:Ha.
  - intros [= <- <-]. split; [discriminate | reflexivity].
  - apply strconv_Atoi_ok in Ha as [Hdec _].
    destruct (Z.ltb_spec n 0); simpl.
    + intros [= <- <-]. split; [discriminate | reflexivity].
    + destruct (Z.leb_spec (len arr) n).
      * intros [= <- <-]. split; [discriminate | reflexivity].
      * intros [= <- <-]. split; [intros _; split; [lia | exact Hdec] | congruence].
Qed.

End MoreValidate.

(** ** Triggers and transactions *)

Section MoreTriggers.

Context {S T : Type} `{!kvTransaction T} `{!kvStorage S T}.

Implicit Types (w : World (S:=S) (T:=T)) (p h : positive).

Lemma well_formed_New (s : S) : well_formed (New (T:=T) s).
Proof.
  intros a [Ha|Ha]; simpl in Ha; rewrite lookup_empty in Ha;
    now destruct Ha.
Qed.

Lemma well_formed_next_free w :
  well_formed w ->
  s_triggers (w_store w) !! w_next w = None /\ w_heap w !! w_next w = None.
Proof.
  intros Hwf. split.
  - destruct (s_triggers (w_store w) !! w_next w) eqn:E; [|reflexivity].
    assert (w_next w < w_next w)%positive by (apply Hwf; left; eauto). lia.
  - destruct (w_heap w !! w_next w) eqn:E; [|reflexivity].
    assert (w_next w < w_next w)%positive by (apply Hwf; right; eauto). lia.
Qed.

(** X8: [runOnCommitTriggers] returns after calling [OnCommit] once for
    each registered trigger, with the transaction and the event it was
    given, and makes no other call: the calls it records (a callback is a
    recorded call that returns) are those of a list of the registrations
    in which every handle stands once and which holds a handle with a
    configuration exactly when the handle is registered with it; so there
    are as many calls as registered triggers.  The order is that of the
    map. *)
Theorem runOnCommitTriggers_each_once txn event w :
  exists entries,
    NoDup entries.*1
    /\ (forall h config,
          (h, config) ∈ entries <-> s_triggers (w_store w) !! h = Some config)
    /\ length entries = size (s_triggers (w_store w))
    /\ runOnCommitTriggers txn event w
       = Returned tt
           (record_calls
              ((fun e => OnCommitCall (OnCommit (snd e)) txn event) <$> entries) w).
Proof.
  exists (map_to_list (s_triggers (w_store w))).
  split; [apply NoDup_fst_map_to_list|].
  split; [intros h config; apply elem_of_map_to_list|].
  split; [apply length_map_to_list|].
  apply runOnCommitTriggers_calls.
Qed.

(** X9: [Register] never fails, whatever handle it is given (it ignores
    the transaction).  It returns a handle that was not in use, maps it to
    the configuration and keeps every other registration, so that a run of
    the triggers makes the same calls as before plus one for the new
    configuration; transactions and the callback log are untouched. *)
Theorem store_Register_adds_one txn config w :
  well_formed w ->
  exists h w',
    store_Register txn config w = Returned (h, None) w'
    /\ s_triggers (w_store w) !! h = None
    /\ w_heap w !! h = None
    /\ s_triggers (w_store w') = <[h := config]> (s_triggers (w_store w))
    /\ w_heap w' = w_heap w
    /\ w_calls w' = w_calls w
    /\ (forall txn' event,
          trigger_calls (s_triggers (w_store w')) txn' event
          ≡ₚ OnCommitCall (OnCommit config) txn' event
             :: trigger_calls (s_triggers (w_store w)) txn' event)
    /\ well_formed w'.
Proof.
  intros Hwf. destruct (well_formed_next_free w Hwf) as [Hfree Hheap].
  exists (w_next w). eexists. split; [reflexivity|]. simpl.
  repeat split; try assumption.
  - intros txn' event. unfold trigger_calls.
    now rewrite (map_to_list_insert _ _ _ Hfree).
  - intros a [Ha|Ha]; simpl in *.
    + destruct (decide (w_next w = a)) as [<-|Hne]; [lia|].
      rewrite lookup_insert_ne in Ha by assumption.
      assert (a < w_next w)%positive by (apply Hwf; now left). lia.
    + assert (a < w_next w)%positive by (apply Hwf; now right). lia.
Qed.

(** X10: [Unregister] of a registered handle removes that handle and
    keeps every other registration, so that a run of the triggers makes
    the same calls as before minus one for the removed configuration. *)
Theorem handle_Unregister_removes_one h txn config w :
  s_triggers (w_store w) !! h = Some config ->
  exists w',
    handle_Unregister h txn w = Returned tt w'
    /\ s_triggers (w_store w') !! h = None
    /\ (forall h', h' <> h ->
          s_triggers (w_store w') !! h' = s_triggers (w_store w) !! h')
    /\ w_heap w' = w_heap w
    /\ w_calls w' = w_calls w
    /\ (forall txn' event,
          trigger_calls (s_triggers (w_store w)) txn' event
          ≡ₚ OnCommitCall (OnCommit config) txn' event
             :: trigger_calls (s_triggers (w_store w')) txn' event).
Proof.
  intros Hh. eexists. split; [reflexivity|]. simpl. repeat split.
  - apply lookup_delete_eq.
  - intros h' Hne. now apply lookup_delete_ne.
  - intros txn' event. unfold trigger_calls.
    now rewrite <- (map_to_list_delete _ _ _ Hh).
Qed.

(** X11: [Unregister] is idempotent: unregistering a handle twice is
    unregistering it once, and unregistering a handle that is not
    registered changes nothing. *)
Theorem handle_Unregister_idempotent h txn1 txn2 w :
  (handle_Unregister h txn1 ;;; handle_Unregister h txn2) w
  = handle_Unregister h txn1 w
  /\ (s_triggers (w_store w) !! h = None -> handle_Unregister h txn1 w = Returned tt w).
Proof.
  split.
  - unfold handle_Unregister, bind, the_store, set_triggers. simpl.
    now rewrite delete_delete_eq.
  - intros Hh. unfold handle_Unregister, bind, the_store, set_triggers. simpl.
    rewrite (delete_id _ _ Hh). now destruct w as [[? ? ?] ? ? ?].
Qed.

(** X12: [Register] followed by [Unregister] of the handle it returned
    restores the store: the triggers are those from before, transactions
    and the callback log are untouched. *)
Theorem Register_then_Unregister txn txn' config w :
  well_formed w ->
  exists w',
    (r <- store_Register txn config ;; handle_Unregister (fst r) txn') w
    = Returned tt w'
    /\ w_store w' = w_store w
    /\ w_heap w' = w_heap w
    /\ w_calls w' = w_calls w.
Proof.
  intros Hwf. destruct (well_formed_next_free w Hwf) as [Hfree _].
  eexists. split; [reflexivity|]. simpl.
  rewrite (delete_insert_id _ _ _ Hfree). repeat split.
  now destruct (w_store w).
Qed.

(** X13: [NewTransaction] returns the error of the engine's [Begin] and
    changes nothing when [Begin] fails; otherwise it returns a handle that
    was not in use, to a transaction that wraps the backend transaction
    [Begin] returned and has no pending update, and leaves the other
    transactions, the store and the callback log untouched. *)
Theorem store_NewTransaction_fresh w :
  well_formed w ->
  match kv_Begin (s_store (w_store w)) with
  | inl err => store_NewTransaction w = Returned (None, Some err) w
  | inr kvtxn =>
      exists p w',
        store_NewTransaction w = Returned (Some (TikvTxn p), None) w'
        /\ w_heap w !! p = None
        /\ w_heap w' = <[p := {| tikvtxn := kvtxn; updates := [] |}]> (w_heap w)
        /\ w_store w' = w_store w
        /\ w_calls w' = w_calls w
        /\ well_formed w'
  end.
Proof.
  intros Hwf. destruct (well_formed_next_free w Hwf) as [_ Hheap].
  unfold store_NewTransaction, bind, the_store. simpl.
  destruct (kv_Begin (s_store (w_store w))) as [err|kvtxn]; [reflexivity|].
  exists (w_next w). eexists. split; [reflexivity|]. simpl.
  repeat split; try assumption.
  intros a [Ha|Ha]; simpl in *.
  - assert (a < w_next w)%positive by (apply Hwf; now left). lia.
  - destruct (decide (w_next w = a)) as [<-|Hne]; [lia|].
    rewrite lookup_insert_ne in Ha by assumption.
    assert (a < w_next w)%positive by (apply Hwf; now right). lia.
Qed.

End MoreTriggers.

(** X19: [Commit] never panics, never returns nil and never changes the
    world: with a handle of another type it returns the InvalidTransaction
    error, with a transaction of this package the error "Not Implemented"
    of the transaction's own commit, and no callback is called. *)
Theorem store_Commit_always_fails (S T : Type) (txn : Transaction)
    (w : World (S:=S) (T:=T)) :
  store_Commit txn w
  = Returned
      (Some match txn with
            | TikvTxn _ => fmt_Errorf "Not Implemented"
            | OtherTxn gotype =>
                storage_Error InvalidTransactionErr
                  ("unexpected transaction type " +:+ gotype)
            end) w.
Proof. destruct txn; reflexivity. Qed.

(** ** The listing of policies, on any backend *)

Lemma append_empty_r (s : string) : s +:+ EmptyString = s.
Proof.
  induction s as [|c s IH]; [reflexivity|].
  change (String c (s +:+ EmptyString) = String c s). now rewrite IH.
Qed.

Lemma strings_Split_sep_free_prefix sep a b :
  contains_byte sep a = false ->
  strings_Split (a +:+ String sep b) sep = a :: strings_Split b sep.
Proof.
  induction a as [|c a IH]; simpl.
  - intros _. now rewrite Ascii.eqb_refl.
  - intros [Hc Ha]%orb_false_elim. now rewrite Hc, (IH Ha).
Qed.

Lemma contains_byte_decompose sep s :
  contains_byte sep s = true ->
  exists a b, s = a +:+ String sep b /\ contains_byte sep a = false.
Proof.
  induction s as [|c s IH]; simpl; [discriminate|].
  destruct (Ascii.eqb_spec c sep) as [->|Hne]; simpl.
  - intros _. now exists EmptyString, s.
  - intros Hs. destruct (IH Hs) as (a & b & -> & Ha).
    exists (String c a), b. split; [reflexivity|]. simpl.
    rewrite Ha, orb_false_r. now apply Ascii.eqb_neq.
Qed.

Lemma strings_Split_head sep b :
  exists id rest,
    strings_Split b sep !! 0%nat = Some id
    /\ b = id +:+ rest
    /\ contains_byte sep id = false
    /\ (rest = EmptyString \/ exists r, rest = String sep r).
Proof.
  destruct (contains_byte sep b) eqn:Hb.
  - destruct (contains_byte_decompose _ _ Hb) as (a & r & -> & Ha).
    exists a, (String sep r).
    rewrite (strings_Split_sep_free_prefix _ _ _ Ha). eauto 6.
  - exists b, EmptyString. rewrite (strings_Split_no_sep _ _ Hb).
    rewrite append_empty_r. auto.
Qed.

Lemma strings_Split_second k :
  contains_byte "/" k = true ->
  exists id, strings_Split k "/" !! 1%nat = Some id /\ between_slashes k id.
Proof.
  intros Hk. destruct (contains_byte_decompose _ _ Hk) as (a & b & -> & Ha).
  destruct (strings_Split_head "/" b) as (id & rest & Hid & -> & Hfree & Hrest).
  exists id. rewrite (strings_Split_sep_free_prefix _ _ _ Ha). simpl.
  split; [exact Hid|]. now exists a, rest.
Qed.

Lemma strings_Split_second_none k :
  contains_byte "/" k = false -> strings_Split k "/" !! 1%nat = None.
Proof. intros Hk. now rewrite (strings_Split_no_sep _ _ Hk). Qed.

Lemma ListPolicies_loop_ids (iter : list (string * string)) :
  Forall (fun e => contains_byte "/" (fst e) = true) iter ->
  forall ids, exists ids',
    ListPolicies_loop iter ids = inr (ids ++ ids')
    /\ Forall2 (fun e id => between_slashes (fst e) id) iter ids'.
Proof.
  induction 1 as [|[k v] iter Hk _ IH]; intros ids.
  - exists []. simpl. now rewrite app_nil_r.
  - simpl in Hk. destruct (strings_Split_second k Hk) as (id & Hid & Hshape).
    destruct (IH (ids ++ [id])) as (ids' & Hloop & Hall).
    exists (id :: ids'). simpl. rewrite Hid, Hloop, <- app_assoc.
    split; [reflexivity|]. now constructor.
Qed.

Lemma ListPolicies_loop_panics (iter : list (string * string)) :
  Exists (fun e => contains_byte "/" (fst e) = false) iter ->
  forall ids,
    ListPolicies_loop iter ids
    = inl (PanicRuntime "index out of range [1] with length 1").
Proof.
  induction iter as [|[k v] iter IH]; intros Hex ids.
  - inversion Hex.
  - simpl. destruct (contains_byte "/" k) eqn:Hk.
    + destruct (strings_Split_second k Hk) as (id & -> & _).
      apply IH. inversion Hex as [? ? Hhd|]; subst; [|assumption].
      simpl in Hhd. congruence.
    + now rewrite (strings_Split_second_none k Hk).
Qed.

Section MoreListPolicies.

Context {S T : Type} `{!kvTransaction T} `{!kvStorage S T}.
Implicit Types (w : World (S:=S) (T:=T)) (p : positive).

(** X14: when every key the iterator yields has a slash, [ListPolicies]
    returns, in the order of the iteration and without changing the world,
    one id for each key: the text between the first and the second slash
    of the key (up to the end of the key when there is no second slash). *)
Theorem ListPolicies_ids p t iter w :
  w_heap w !! p = Some t ->
  kv_Iter (tikvtxn t) "policies/" None = (iter, None) ->
  Forall (fun e => contains_byte "/" (fst e) = true) iter ->
  exists ids,
    store_ListPolicies (TikvTxn p) w = Returned (ids, None) w
    /\ Forall2 (fun e id => between_slashes (fst e) id) iter ids.
Proof.
  intros Hp Hiter Hall.
  destruct (ListPolicies_loop_ids iter Hall []) as (ids & Hloop & Hshape).
  exists ids. split; [|exact Hshape].
  unfold store_ListPolicies, transaction_ListPolicies, bind, deref. simpl.
  now rewrite Hp, Hiter, Hloop.
Qed.

(** X15: [ListPolicies] returns the error of the backend's [Iter], with
    no ids, when the iterator cannot be opened, and panics with an index
    out of range when one of the keys the iterator yields has no slash. *)
Theorem ListPolicies_failures p t w :
  w_heap w !! p = Some t ->
  (forall iter err,
     kv_Iter (tikvtxn t) "policies/" None = (iter, Some err) ->
     store_ListPolicies (TikvTxn p) w = Returned ([], Some err) w)
  /\ (forall iter,
     kv_Iter (tikvtxn t) "policies/" None = (iter, None) ->
     Exists (fun e => contains_byte "/" (fst e) = false) iter ->
     store_ListPolicies (TikvTxn p) w
     = Panicked (PanicRuntime "index out of range [1] with length 1") w).
Proof.
  intros Hp. split.
  - intros iter err Hiter.
    unfold store_ListPolicies, transaction_ListPolicies, bind, deref. simpl.
    now rewrite Hp, Hiter.
  - intros iter Hiter Hex.
    unfold store_ListPolicies, transaction_ListPolicies, bind, deref. simpl.
    now rewrite Hp, Hiter, (ListPolicies_loop_panics iter Hex).
Qed.

End MoreListPolicies.

(** ** Policies on the in-memory engine, continued *)

Lemma leb_common_prefix pre x y :
  String.leb (pre +:+ x) (pre +:+ y) = String.leb x y.
Proof.
  unfold String.leb. induction pre as [|c pre IH]; [reflexivity|].
  change (match String.compare (String c (pre +:+ x)) (String c (pre +:+ y)) with
          | Gt => false | _ => true end
          = match String.compare x y with Gt => false | _ => true end).
  simpl. unfold Ascii.compare. rewrite N.compare_refl. exact IH.
Qed.

Lemma append_inj_l pre x y : pre +:+ x = pre +:+ y -> x = y.
Proof.
  induction pre as [|c pre IH]; [now intros|].
  change (String c (pre +:+ x) = String c (pre +:+ y) -> x = y).
  intros [= Heq]. now apply IH.
Qed.

Lemma StronglySorted_omap {A B} (R : relation A) (R' : relation B)
    (f : A -> option B) l :
  (forall a b x y, f a = Some x -> f b = Some y -> R a b -> R' x y) ->
  StronglySorted R l -> StronglySorted R' (omap f l).
Proof.
  intros Hmono. induction 1 as [|a l Hl IH Ha]; [constructor|].
  simpl. destruct (f a) as [x|] eqn:Hfa; [|exact IH].
  constructor; [exact IH|].
  apply Forall_forall. intros y [b [Hb Hfb]]%list_elem_of_omap.
  rewrite Forall_forall in Ha. eauto.
Qed.

Lemma NoDup_omap {A B} (f : A -> option B) l :
  (forall a b x, a ∈ l -> b ∈ l -> f a = Some x -> f b = Some x -> a = b) ->
  NoDup l -> NoDup (omap f l).
Proof.
  intros Hinj. induction 1 as [|a l Hnotin Hnd IH]; [constructor|].
  simpl. assert (IH' : NoDup (omap f l)).
  { apply IH. intros b c x Hb Hc. apply Hinj; now right. }
  destruct (f a) as [x|] eqn:Hfa; [|exact IH'].
  constructor; [|exact IH'].
  intros [b [Hb Hfb]]%list_elem_of_omap.
  assert (a = b) by (eapply Hinj; [left | now right | eassumption..]).
  now subst.
Qed.

Section MoreMemPolicies.

Variable strconv_Quote : string -> string.
Implicit Types (w : World (S:=memStorage) (T:=memTxn)) (p : positive).

Lemma policy_ids_spec state id :
  id ∈ policy_ids state <-> is_Some (state !! policy_key id).
Proof.
  split.
  - intros [[k v] [Hin Hstrip]]%list_elem_of_omap. cbn [fst] in Hstrip.
    apply strip_prefix_app in Hstrip as ->.
    rewrite merge_sort_Permutation in Hin.
    apply elem_of_map_to_list in Hin. unfold policy_key. eauto.
  - intros [v Hv]. now apply (elem_of_policy_ids state id v).
Qed.

Lemma policy_ids_sorted state : ids_sorted (policy_ids state).
Proof.
  unfold ids_sorted, policy_ids.
  apply (StronglySorted_omap key_le); [|apply StronglySorted_merge_sort; apply _].
  intros [k1 v1] [k2 v2] x y Hx Hy Hle. cbn [fst] in Hx, Hy.
  apply strip_prefix_app in Hx as ->. apply strip_prefix_app in Hy as ->.
  unfold key_le in Hle. simpl in Hle. now rewrite leb_common_prefix in Hle.
Qed.

Lemma policy_ids_NoDup state : NoDup (policy_ids state).
Proof.
  unfold policy_ids. apply NoDup_omap.
  - intros [k1 v1] [k2 v2] x H1 H2 Hx Hy. cbn [fst] in Hx, Hy.
    apply strip_prefix_app in Hx as ->. apply strip_prefix_app in Hy as ->.
    rewrite merge_sort_Permutation in H1, H2.
    apply elem_of_map_to_list in H1, H2. congruence.
  - rewrite merge_sort_Permutation. apply NoDup_map_to_list.
Qed.

(** X16: on the in-memory engine, when every key from [policies/] on is
    the key of a policy whose id has no slash, [ListPolicies] returns
    exactly the ids of the policies visible in the transaction, each once,
    in byte-lexicographic order. *)
Theorem ListPolicies_exact_ids p t w :
  w_heap w !! p = Some t ->
  policy_keys_only (mt_view (tikvtxn t)) ->
  exists ids,
    store_ListPolicies (TikvTxn p) w = Returned (ids, None) w
    /\ (forall id, id ∈ ids <-> is_Some (mt_view (tikvtxn t) !! policy_key id))
    /\ NoDup ids
    /\ ids_sorted ids.
Proof.
  intros Hp Hkeys. exists (policy_ids (mt_view (tikvtxn t))).
  split; [now apply store_ListPolicies_policy_keys|].
  split; [apply policy_ids_spec|].
  split; [apply policy_ids_NoDup | apply policy_ids_sorted].
Qed.

Lemma policy_keys_only_delete state k :
  policy_keys_only state -> policy_keys_only (delete k state).
Proof.
  intros Hst k' v. rewrite lookup_delete.
  destruct (decide (k = k')); [discriminate | apply Hst].
Qed.

Lemma store_UpsertPolicy_mem p t id bs w :
  w_heap w !! p = Some t ->
  store_UpsertPolicy (TikvTxn p) id bs w
  = Returned None
      (world_after
         (assign p {| tikvtxn := fst (mem_Set (tikvtxn t) (policy_key id) bs);
                      updates := updates t |}) w).
Proof.
  intros Hp. unfold store_UpsertPolicy, transaction_UpsertPolicy, bind, deref.
  simpl. now rewrite Hp.
Qed.

Lemma store_DeletePolicy_mem p t id v w :
  w_heap w !! p = Some t ->
  mt_view (tikvtxn t) !! policy_key id = Some v ->
  store_DeletePolicy (TikvTxn p) id w
  = Returned None
      (world_after
         (assign p {| tikvtxn := fst (mem_Delete (tikvtxn t) (policy_key id));
                      updates := updates t |}) w).
Proof.
  intros Hp Hv. unfold store_DeletePolicy, transaction_DeletePolicy, bind, deref.
  simpl. rewrite Hp. simpl. unfold mem_Delete, policy_key in *. now rewrite Hv.
Qed.

Lemma store_GetPolicy_mem p t id w :
  w_heap w !! p = Some t ->
  store_GetPolicy strconv_Quote (TikvTxn p) id w
  = Returned
      match mt_view (tikvtxn t) !! policy_key id with
      | Some v => (v, None)
      | None => (EmptyString,
                 Some (storage_Error NotFoundErr ("policy id " +:+ strconv_Quote id)))
      end w.
Proof.
  intros Hp. unfold store_GetPolicy, transaction_GetPolicy, bind, deref.
  simpl. rewrite Hp. simpl. unfold mem_Get, policy_key.
  now destruct (mt_view (tikvtxn t) !! ("policies/" +:+ id)).
Qed.

(** X17: on the in-memory engine, in a transaction that sees policy keys
    only, the life of a policy whose id has no slash: [UpsertPolicy]
    succeeds, [GetPolicy] returns the bytes, [ListPolicies] includes the
    id; then [DeletePolicy] succeeds, [GetPolicy] fails with NotFound and
    [ListPolicies] no longer includes the id, while every other id is
    listed after the deletion exactly when it was before. *)
Theorem policy_lifecycle p t id bs w :
  w_heap w !! p = Some t ->
  policy_keys_only (mt_view (tikvtxn t)) ->
  contains_byte "/" id = false ->
  exists ids1 ids2 w',
    (e1 <- store_UpsertPolicy (TikvTxn p) id bs ;;
     g1 <- store_GetPolicy strconv_Quote (TikvTxn p) id ;;
     l1 <- store_ListPolicies (TikvTxn p) ;;
     e2 <- store_DeletePolicy (TikvTxn p) id ;;
     g2 <- store_GetPolicy strconv_Quote (TikvTxn p) id ;;
     l2 <- store_ListPolicies (TikvTxn p) ;;
     ret (e1, g1, l1, e2, g2, l2)) w
    = Returned (None, (bs, None), (ids1, None), None,
                (EmptyString,
                 Some (storage_Error NotFoundErr ("policy id " +:+ strconv_Quote id))),
                (ids2, None)) w'
    /\ id ∈ ids1
    /\ (id ∉ ids2)
    /\ (forall id', id' <> id -> (id' ∈ ids1 <-> id' ∈ ids2)).
Proof.
  intros Hp Hkeys Hid.
  set (t1 := {| tikvtxn := fst (mem_Set (tikvtxn t) (policy_key id) bs);
                updates := updates t |}).
  set (w1 := world_after (assign p t1) w).
  assert (Hp1 : w_heap w1 !! p = Some t1) by apply lookup_insert_eq.
  assert (Hk1 : policy_keys_only (mt_view (tikvtxn t1)))
    by now apply policy_keys_only_insert.
  assert (Hv1 : mt_view (tikvtxn t1) !! policy_key id = Some bs)
    by apply lookup_insert_eq.
  set (t2 := {| tikvtxn := fst (mem_Delete (tikvtxn t1) (policy_key id));
                updates := updates t1 |}).
  set (w2 := world_after (assign p t2) w1).
  assert (Hp2 : w_heap w2 !! p = Some t2) by apply lookup_insert_eq.
  assert (Hview2 : mt_view (tikvtxn t2) = delete (policy_key id) (mt_view (tikvtxn t1))).
  { unfold t2. cbn [tikvtxn]. unfold mem_Delete. now rewrite Hv1. }
  assert (Hk2 : policy_keys_only (mt_view (tikvtxn t2)))
    by (rewrite Hview2; now apply policy_keys_only_delete).
  assert (Hv2 : mt_view (tikvtxn t2) !! policy_key id = None)
    by (rewrite Hview2; apply lookup_delete_eq).
  exists (policy_ids (mt_view (tikvtxn t1))), (policy_ids (mt_view (tikvtxn t2))), w2.
  split.
  - unfold bind.
    rewrite (store_UpsertPolicy_mem p t id bs w Hp). fold t1 w1.
    rewrite (store_GetPolicy_mem p t1 id w1 Hp1), Hv1.
    rewrite (store_ListPolicies_policy_keys p t1 w1 Hp1 Hk1).
    rewrite (store_DeletePolicy_mem p t1 id bs w1 Hp1 Hv1). fold t2 w2.
    rewrite (store_GetPolicy_mem p t2 id w2 Hp2), Hv2.
    rewrite (store_ListPolicies_policy_keys p t2 w2 Hp2 Hk2).
    reflexivity.
  - split; [apply policy_ids_spec; eauto|]. split.
    + intros [v Hv]%policy_ids_spec. congruence.
    + intros id' Hne. rewrite !policy_ids_spec, Hview2.
      rewrite lookup_delete_ne; [reflexivity|].
      unfold policy_key. intros Heq. apply append_inj_l in Heq. congruence.
Qed.

(** X18: on the in-memory engine, upserting or deleting one policy does
    not change what [GetPolicy] returns for a policy with another id. *)
Theorem other_policies_untouched p t id id' bs w :
  w_heap w !! p = Some t ->
  id' <> id ->
  returned ((store_UpsertPolicy (TikvTxn p) id bs ;;;
             store_GetPolicy strconv_Quote (TikvTxn p) id') w)
  = returned (store_GetPolicy strconv_Quote (TikvTxn p) id' w)
  /\ returned ((store_DeletePolicy (TikvTxn p) id ;;;
                store_GetPolicy strconv_Quote (TikvTxn p) id') w)
     = returned (store_GetPolicy strconv_Quote (TikvTxn p) id' w).
Proof.
  intros Hp Hne.
  assert (Hkey : policy_key id <> policy_key id').
  { unfold policy_key. intros Heq. apply append_inj_l in Heq. congruence. }
  rewrite (store_GetPolicy_mem p t id' w Hp). split.
  - unfold bind. rewrite (store_UpsertPolicy_mem p t id bs w Hp).
    erewrite store_GetPolicy_mem by apply lookup_insert_eq.
    simpl. now rewrite lookup_insert_ne.
  - unfold bind, store_DeletePolicy, transaction_DeletePolicy, bind, deref.
    simpl. rewrite Hp. simpl. unfold mem_Delete.
    destruct (mt_view (tikvtxn t) !! ("policies/" +:+ id)) as [v|] eqn:Hv; simpl.
    + erewrite store_GetPolicy_mem by apply lookup_insert_eq.
      simpl. fold (policy_key id). now rewrite lookup_delete_ne.
    + erewrite store_GetPolicy_mem by apply lookup_insert_eq. reflexivity.
Qed.

End MoreMemPolicies.

(** ** Runs that meet the hypotheses above *)

Lemma mem_world_heap committed :
  w_heap (mem_world committed) !! 1%positive = Some (mem_txn committed).
Proof. apply lookup_insert_eq. Qed.

Lemma mem_world_well_formed committed : well_formed (mem_world committed).
Proof.
  intros a [Ha|Ha].
  - simpl in Ha. rewrite lookup_empty in Ha. now destruct Ha.
  - change (w_heap (mem_world committed)) with
      (<[1%positive := mem_txn committed]> (∅ : gmap positive (transaction (T:=memTxn)))) in Ha.
    destruct (decide (1%positive = a)) as [<-|Hne]; [reflexivity|].
    rewrite lookup_insert_ne, lookup_empty in Ha by assumption. now destruct Ha.
Qed.

Lemma policy_keys_only_empty : policy_keys_only ∅.
Proof. intros k v Hk. rewrite lookup_empty in Hk. discriminate Hk. Qed.

Lemma second_Write_never_returns_witness :
  (store_Write record_update json_RoundTrip 3 (TikvTxn 1%positive) AddOp ["a"] (VString "x") ;;;
   store_Write record_update json_RoundTrip 5 (TikvTxn 1%positive) ReplaceOp ["b"] VNull)
    (mem_world ∅)
  = Looping.
Proof.
  apply (second_Write_never_returns record_update json_RoundTrip 3 5 1%positive
           (mem_txn ∅) AddOp ReplaceOp "a" [] "b" [] (VString "x") VNull
           (VString "x") VNull
           {| update_path := ["a"]; update_remove := false;
              update_value := VString "x" |}).
  - apply mem_world_heap.
  - reflexivity.
  - reflexivity.
  - reflexivity.
Defined.

Lemma down_world_heap :
  w_heap down_world !! 1%positive = Some {| tikvtxn := DownTxn; updates := [] |}.
Proof. apply lookup_insert_eq. Qed.

Lemma GetPolicy_errors_witness :
  store_GetPolicy ascii_Quote (TikvTxn 1%positive) "p" down_world
  = Returned ("stale", None) down_world
  /\ store_GetPolicy ascii_Quote (TikvTxn 1%positive) "p" (mem_world ∅)
     = Returned (EmptyString,
                 Some (storage_Error NotFoundErr ("policy id " +:+ ascii_Quote "p")))
         (mem_world ∅).
Proof.
  split.
  - destruct (GetPolicy_errors ascii_Quote 1%positive
                {| tikvtxn := DownTxn; updates := [] |} "p" down_world
                down_world_heap)
      as (val & err & Hrun & _ & Hother).
    destruct Hother as [Hval Herr]; [simpl; discriminate|].
    rewrite Hrun, Hval, Herr. reflexivity.
  - destruct (GetPolicy_errors ascii_Quote 1%positive (mem_txn ∅) "p"
                (mem_world ∅) (mem_world_heap ∅))
      as (val & err & Hrun & Hmissing & _).
    destruct Hmissing as [Hval Herr]; [reflexivity|].
    rewrite Hrun, Hval, Herr. reflexivity.
Defined.

Lemma policy_writes_are_confined_witness :
  exists w1,
    store_UpsertPolicy (TikvTxn 1%positive) "p" "package p" (mem_world ∅)
    = Returned None w1
    /\ w_store w1 = w_store (mem_world ∅)
    /\ w_calls w1 = w_calls (mem_world ∅).
Proof.
  destruct (policy_writes_are_confined 1%positive (mem_txn ∅) "p" "package p"
              (mem_world ∅) (mem_world_heap ∅))
    as [(w1 & Hrun & _ & Hstore & Hcalls & _) _].
  exists w1. split; [exact Hrun|]. split; [exact Hstore | exact Hcalls].
Defined.

Lemma validateArrayIndex_sound_witness :
  0 <= 1 < len [VNull; VNull] /\ DecimalInteger "1" 1.
Proof.
  apply (proj1 (validateArrayIndex_sound slash_Path_String [VNull; VNull] "1"
                  ["a"; "1"] 1 None eq_refl)).
  reflexivity.
Defined.

Lemma store_Register_adds_one_witness :
  exists h w',
    store_Register (OtherTxn "nil") {| OnCommit := 7 |} (mem_world ∅)
    = Returned (h, None) w'
    /\ s_triggers (w_store w') !! h = Some {| OnCommit := 7 |}.
Proof.
  destruct (store_Register_adds_one (OtherTxn "nil") {| OnCommit := 7 |}
              (mem_world ∅) (mem_world_well_formed ∅))
    as (h & w' & Hrun & _ & _ & Htr & _).
  exists h, w'. split; [exact Hrun|]. rewrite Htr. apply lookup_insert_eq.
Defined.

Lemma handle_Unregister_removes_one_witness :
  exists w',
    handle_Unregister 2%positive (OtherTxn "nil") one_trigger_world = Returned tt w'
    /\ s_triggers (w_store w') !! 2%positive = None.
Proof.
  destruct (handle_Unregister_removes_one 2%positive (OtherTxn "nil")
              {| OnCommit := 7 |} one_trigger_world eq_refl)
    as (w' & Hrun & Hgone & _).
  exists w'. split; [exact Hrun | exact Hgone].
Defined.

Lemma Register_then_Unregister_witness :
  exists w',
    (r <- store_Register (OtherTxn "nil") {| OnCommit := 7 |} ;;
     handle_Unregister (fst r) (OtherTxn "nil")) (mem_world ∅)
    = Returned tt w'
    /\ w_store w' = w_store (mem_world ∅).
Proof.
  destruct (Register_then_Unregister (OtherTxn "nil") (OtherTxn "nil")
              {| OnCommit := 7 |} (mem_world ∅) (mem_world_well_formed ∅))
    as (w' & Hrun & Hstore & _).
  exists w'. split; [exact Hrun | exact Hstore].
Defined.

Lemma store_NewTransaction_fresh_witness :
  exists p w',
    store_NewTransaction (mem_world ∅) = Returned (Some (TikvTxn p), None) w'
    /\ w_heap (mem_world ∅) !! p = None
    /\ well_formed w'.
Proof.
  pose proof (store_NewTransaction_fresh (mem_world ∅) (mem_world_well_formed ∅))
    as Hnew.
  change (kv_Begin (s_store (w_store (mem_world ∅))))
    with (@inr error memTxn {| mt_snapshot := ∅; mt_view := ∅; mt_valid := true |})
    in Hnew.
  destruct Hnew as (p & w' & Hrun & Hfree & _ & _ & _ & Hwf).
  exists p, w'. split; [exact Hrun|]. split; [exact Hfree | exact Hwf].
Defined.

Lemma ListPolicies_ids_witness :
  let state : gmap string string := {[ "policies/p/q" := "package p" ]} in
  exists ids,
    store_ListPolicies (TikvTxn 1%positive) (mem_world state)
    = Returned (ids, None) (mem_world state)
    /\ Forall2 (fun e id => between_slashes (fst e) id)
         [("policies/p/q", "package p")] ids.
Proof.
  intros state.
  apply (ListPolicies_ids 1%positive (mem_txn state)
           [("policies/p/q", "package p")] (mem_world state)).
  - apply mem_world_heap.
  - vm_compute. reflexivity.
  - repeat constructor.
Defined.

Lemma ListPolicies_failures_witness :
  let state : gmap string string :=
    <[ "policies/p" := "package p" ]> {[ "zone" := "1" ]} in
  store_ListPolicies (TikvTxn 1%positive) (mem_world state)
  = Panicked (PanicRuntime "index out of range [1] with length 1") (mem_world state).
Proof.
  intros state.
  apply (proj2 (ListPolicies_failures 1%positive (mem_txn state) (mem_world state)
                  (mem_world_heap state))
           [("policies/p", "package p"); ("zone", "1")]).
  - vm_compute. reflexivity.
  - right. left. reflexivity.
Defined.

Lemma two_policies_keys_only : policy_keys_only two_policies.
Proof.
  apply policy_keys_only_insert; [reflexivity|].
  apply policy_keys_only_insert; [reflexivity|].
  apply policy_keys_only_empty.
Qed.

Lemma ListPolicies_exact_ids_witness :
  exists ids,
    store_ListPolicies (TikvTxn 1%positive) (mem_world two_policies)
    = Returned (ids, None) (mem_world two_policies)
    /\ (forall id, id ∈ ids <-> is_Some (two_policies !! policy_key id))
    /\ NoDup ids
    /\ ids_sorted ids.
Proof.
  apply (ListPolicies_exact_ids 1%positive (mem_txn two_policies)
           (mem_world two_policies) (mem_world_heap two_policies)
           two_policies_keys_only).
Defined.

Lemma policy_lifecycle_witness :
  exists ids1 ids2 w',
    (e1 <- store_UpsertPolicy (TikvTxn 1%positive) "test" "package test" ;;
     g1 <- store_GetPolicy ascii_Quote (TikvTxn 1%positive) "test" ;;
     l1 <- store_ListPolicies (TikvTxn 1%positive) ;;
     e2 <- store_DeletePolicy (TikvTxn 1%positive) "test" ;;
     g2 <- store_GetPolicy ascii_Quote (TikvTxn 1%positive) "test" ;;
     l2 <- store_ListPolicies (TikvTxn 1%positive) ;;
     ret (e1, g1, l1, e2, g2, l2)) (mem_world ∅)
    = Returned (None, ("package test", None), (ids1, None), None,
                (EmptyString,
                 Some (storage_Error NotFoundErr
                         ("policy id " +:+ ascii_Quote "test"))),
                (ids2, None)) w'
    /\ "test" ∈ ids1
    /\ ("test" ∉ ids2).
Proof.
  destruct (policy_lifecycle ascii_Quote 1%positive (mem_txn ∅) "test"
              "package test" (mem_world ∅) (mem_world_heap ∅)
              policy_keys_only_empty eq_refl)
    as (ids1 & ids2 & w' & Hrun & Hin & Hout & _).
  exists ids1, ids2, w'. split; [exact Hrun|]. split; [exact Hin | exact Hout].
Defined.

Lemma other_policies_untouched_witness :
  returned ((store_UpsertPolicy (TikvTxn 1%positive) "a" "package a" ;;;
             store_GetPolicy ascii_Quote (TikvTxn 1%positive) "b")
              (mem_world {[ "policies/b" := "package b" ]}))
  = Some ("package b", None).
Proof.
  rewrite (proj1 (other_policies_untouched ascii_Quote 1%positive
                    (mem_txn {[ "policies/b" := "package b" ]}) "a" "b"
                    "package a" (mem_world {[ "policies/b" := "package b" ]})
                    (mem_world_heap _) ltac:(discriminate))).
  vm_compute. reflexivity.
Defined.
